(** * create-wrangler-config.py: a shallow embedding and its properties

    The script [packages/api/scripts/create-wrangler-config.py] builds
    [wrangler.toml] from [wrangler.example.toml] by substituting the
    placeholder [${D1_DATABASE_ID}].  This development embeds it in three
    layers:

    - [Py]: the [str] methods the script calls ([strip], [startswith],
      [in], [replace], [splitlines], [join], slices), over Unicode code
      points;
    - [Re]: the fragment of the [re] module the four patterns of the script
      need, as a backtracking matcher over a flat program of opcodes;
    - [Script]: the three functions of the file, [main] written in a small
      state-and-exit monad over a record of the files and the environment
      variable it touches.

    Texts are the [str] values the script handles: what [read_text]
    returns and what [write_text] receives, before and after any encoding
    or newline translation by the file layer.  Files are accessed one run
    at a time: what a run writes is what it reads back. *)

From Stdlib Require Import NArith String Ascii List Lia Bool.
From stdpp Require Import base list.

Local Open Scope N_scope.
Local Open Scope list_scope.

(** A character is a Unicode code point; a Python [str] is a list of them. *)
Abbreviation char := N (only parsing).
Abbreviation str := (list N) (only parsing).

(** The code points of an ASCII literal of the source. *)
Definition lit (s : string) : str := map N_of_ascii (list_ascii_of_string s).

(** ** Python [str] primitives *)
Module Py.

Definition LF : char := 10.
Definition CR : char := 13.

(** [str.isspace] on one code point (CPython's [Py_UNICODE_ISSPACE]): the
    table [re]'s [\s] and [str.strip] both use. *)
Definition isspace (c : char) : bool :=
  ((9 <=? c) && (c <=? 13)) || ((28 <=? c) && (c <=? 32))
  || (c =? 133) || (c =? 160) || (c =? 5760)
  || ((8192 <=? c) && (c <=? 8202))
  || (c =? 8232) || (c =? 8233) || (c =? 8239) || (c =? 8287) || (c =? 12288).

(** The line boundaries of [str.splitlines]
    (CPython's [Py_UNICODE_ISLINEBREAK]). *)
Definition islinebreak (c : char) : bool :=
  ((10 <=? c) && (c <=? 13)) || ((28 <=? c) && (c <=? 30))
  || (c =? 133) || (c =? 8232) || (c =? 8233).

Fixpoint dropwhile (p : char -> bool) (s : str) : str :=
  match s with
  | [] => []
  | c :: s' => if p c then dropwhile p s' else s
  end.

Fixpoint takewhile (p : char -> bool) (s : str) : str :=
  match s with
  | [] => []
  | c :: s' => if p c then c :: takewhile p s' else []
  end.

(** [s.lstrip()], [s.rstrip()], [s.strip()] *)
Definition lstrip (s : str) : str := dropwhile isspace s.
Definition rstrip (s : str) : str := rev (dropwhile isspace (rev s)).
Definition strip (s : str) : str := rstrip (lstrip s).

(** [s.startswith(p)] *)
Fixpoint startswith (s p : str) {struct p} : bool :=
  match p, s with
  | [], _ => true
  | _ :: _, [] => false
  | c :: p', d :: s' => (d =? c) && startswith s' p'
  end.

(** [s.endswith(p)] *)
Definition endswith (s p : str) : bool := startswith (rev s) (rev p).

(** [p in s] *)
Fixpoint contains (p s : str) : bool :=
  startswith s p
  || match s with
     | [] => false
     | _ :: s' => contains p s'
     end.

(** [s.replace(old, new)]: every occurrence of [old], found left to right
    without overlap, becomes [new].  [skip] counts the characters of the
    occurrence just replaced that are still to be passed over. *)
Fixpoint replace_from (old new : str) (skip : nat) (s : str) : str :=
  match s with
  | [] => []
  | c :: s' =>
      match skip with
      | S k => replace_from old new k s'
      | O =>
          if startswith s old
          then new ++ replace_from old new (length old - 1) s'
          else c :: replace_from old new 0 s'
      end
  end.

(** With an empty [old] Python inserts [new] before every character and at
    the end. *)
Fixpoint intersperse_all (new s : str) : str :=
  match s with
  | [] => new
  | c :: s' => new ++ c :: intersperse_all new s'
  end.

Definition replace (s old new : str) : str :=
  match old with
  | [] => intersperse_all new s
  | _ :: _ => replace_from old new 0 s
  end.

(** [s.splitlines(keepends=False)]: [\r\n] is one boundary, and a final
    boundary opens no empty last line. *)
Fixpoint splitlines (s : str) : list str :=
  match s with
  | [] => []
  | c :: s' =>
      if islinebreak c then
        [] :: (if c =? CR
               then match s' with
                    | d :: s'' => if d =? LF then splitlines s'' else splitlines s'
                    | [] => splitlines s'
                    end
               else splitlines s')
      else
        match splitlines s' with
        | [] => [[c]]
        | l :: ls => (c :: l) :: ls
        end
  end.

(** [sep.join(ls)] *)
Fixpoint join (sep : str) (ls : list str) : str :=
  match ls with
  | [] => []
  | [l] => l
  | l :: ls' => l ++ sep ++ join sep ls'
  end.

(** [s[:n]] and [s[-n:]] for [n > 0] *)
Definition slice_to (n : nat) (s : str) : str := take n s.
Definition slice_last (n : nat) (s : str) : str := drop (length s - n) s.

End Py.

(** ** The fragment of [re] the script uses

    A pattern is the flat opcode program [sre] compiles it to.  A position
    in the subject is the pair of the character before it (if any) and the
    text after it; a mark records the text after it. *)
Module Re.

Inductive op : Type :=
| LITERAL (c : char)               (* one given character *)
| IN (cls : char -> bool)          (* one character of a class *)
| MAX_REPEAT (cls : char -> bool)  (* greedy [cls*] *)
| AT_BEGINNING                     (* [^] *)
| AT_BEGINNING_LINE                (* [^] under MULTILINE *)
| AT_END                           (* [$] *)
| AT_END_LINE                      (* [$] under MULTILINE *)
| MARK.                            (* a group boundary *)

Definition program := list op.

(** Backtracking match of [prog] at one position; the result lists the
    marks passed, in program order. *)
Fixpoint run (prog : program) : option char -> str -> option (list str) :=
  match prog with
  | [] => fun _ _ => Some []
  | o :: rest =>
      match o with
      | LITERAL c => fun _ s =>
          match s with
          | d :: s' => if d =? c then run rest (Some d) s' else None
          | [] => None
          end
      | IN cls => fun _ s =>
          match s with
          | d :: s' => if cls d then run rest (Some d) s' else None
          | [] => None
          end
      | MAX_REPEAT cls =>
          fix star (prev : option char) (s : str) {struct s} :=
            match s with
            | d :: s' =>
                if cls d then
                  match star (Some d) s' with
                  | Some r => Some r
                  | None => run rest prev s
                  end
                else run rest prev s
            | [] => run rest prev s
            end
      | AT_BEGINNING => fun prev s =>
          match prev with
          | None => run rest prev s
          | Some _ => None
          end
      | AT_BEGINNING_LINE => fun prev s =>
          match prev with
          | None => run rest prev s
          | Some d => if d =? Py.LF then run rest prev s else None
          end
      | AT_END => fun prev s =>
          match s with
          | [] => run rest prev s
          | [d] => if d =? Py.LF then run rest prev s else None
          | _ :: _ :: _ => None
          end
      | AT_END_LINE => fun prev s =>
          match s with
          | [] => run rest prev s
          | d :: _ => if d =? Py.LF then run rest prev s else None
          end
      | MARK => fun prev s =>
          match run rest prev s with
          | Some r => Some (s :: r)
          | None => None
          end
      end
  end.

(** [pattern.match(s)]: a match at the start of [s]. *)
Definition match_ (prog : program) (s : str) : option (list str) :=
  run prog None s.

(** [pattern.search(s)]: the match at the leftmost position that has one. *)
Fixpoint search_from (prog : program) (prev : option char) (s : str)
  : option (list str) :=
  match run prog prev s with
  | Some r => Some r
  | None =>
      match s with
      | [] => None
      | c :: s' => search_from prog (Some c) s'
      end
  end.

Definition search (prog : program) (s : str) : option (list str) :=
  search_from prog None s.

(** [m.group(1)]: the text between the first two marks. *)
Definition group1 (m : list str) : str :=
  match m with
  | a :: b :: _ => take (length a - length b) a
  | _ => []
  end.

(** Pattern constructors: a literal string, [cls+], [cls{n}]. *)
Definition literal (s : string) : program := map LITERAL (lit s).
Definition plus (cls : char -> bool) : program := [IN cls; MAX_REPEAT cls].
Definition times (n : nat) (cls : char -> bool) : program := replicate n (IN cls).

(** Character classes: whitespace, anything but the double quote,
    a hexadecimal digit. *)
Definition space : char -> bool := Py.isspace.
Definition not_quote (c : char) : bool := negb (c =? 34).
Definition hex (c : char) : bool :=
  ((48 <=? c) && (c <=? 57)) || ((97 <=? c) && (c <=? 102))
  || ((65 <=? c) && (c <=? 70)).

End Re.


(** ** The script *)
Module Script.

(** *** The world the script runs in

    The environment variable [D1_DATABASE_ID], the three files next to the
    script, and the two output streams.  A file that exists but cannot be
    read ([read_text] raises) is [Unreadable]; [toml_writable] tells
    whether [write_text] on [wrangler.toml] succeeds, and [toml_writes]
    lists the texts [write_text] was called with, oldest first.
    [write_text] opens the file with mode w, which truncates it, and then
    writes: [toml_write_failure] tells where a failing call raises. *)
Inductive file : Type :=
| Missing
| Unreadable
| Content (text : str).

(** How [write_text] fails when it does: [open] raises and the file is
    left as it was, or [open] has truncated the file and the write raises,
    leaving in the file the part [remains] that reached it (nothing when the
    text cannot be encoded). *)
Inductive write_failure : Type :=
| FailsAtOpen
| FailsAfterOpen (remains : str).

Inductive source : Type :=
| EnvironmentVariable
| WranglerTomlLocal.

(** One constructor for each [print] call of the source, with what the
    call interpolates. *)
Inductive message : Type :=
| WarnLocalUnreadable
| ErrNotFound
| HintSetVariable
| HintSeeExample
| ErrEmpty
| WarnFormat (head : str)
| WarnContinuing
| InfoDatabaseId (head tail : str) (src : source)
| ErrExampleMissing
| InfoCreating
| ErrExampleUnreadable
| ErrPlaceholderMissing
| ErrPlaceholderLeft
| ErrEmptyAfterSubstitution
| ErrValueEmpty
| ErrLineNotFound
| ErrWriteFailed
| ErrDisappeared
| ErrFormatVerification
| DumpLine (line_num : nat) (line : str)
| ErrPlaceholderInFinal
| ErrVerifyFailed
| InfoSuccess
| InfoSource
| InfoTarget.

Record world : Type := World {
  environ : option str;
  wrangler_local : file;
  wrangler_example : file;
  wrangler_toml : file;
  toml_writable : bool;
  toml_writes : list str;
  stdout : list message;
  stderr : list message;
  toml_write_failure : write_failure
}.

(** *** A state-and-exit monad: a computation returns a value or leaves
    through [sys.exit]. *)
Inductive result (A : Type) : Type :=
| Return (a : A)
| Exit (code : N).
Arguments Return {A} a.
Arguments Exit {A} code.

Definition M (A : Type) : Type := world -> result A * world.

Definition ret {A} (a : A) : M A := fun w => (Return a, w).

Definition bind {A B} (c : M A) (k : A -> M B) : M B :=
  fun w =>
    match c w with
    | (Return a, w') => k a w'
    | (Exit code, w') => (Exit code, w')
    end.

Notation "x <- c ;; k" := (bind c (fun x => k))
  (at level 62, c at next level, right associativity).
Notation "c ;;; k" := (bind c (fun _ => k))
  (at level 62, right associativity).

Definition sys_exit {A} (code : N) : M A := fun w => (Exit code, w).

Definition get : M world := fun w => (Return w, w).

Definition print (m : message) : M unit := fun w =>
  (Return tt,
   World (environ w) (wrangler_local w) (wrangler_example w)
         (wrangler_toml w) (toml_writable w) (toml_writes w)
         (stdout w ++ [m]) (stderr w) (toml_write_failure w)).

Definition eprint (m : message) : M unit := fun w =>
  (Return tt,
   World (environ w) (wrangler_local w) (wrangler_example w)
         (wrangler_toml w) (toml_writable w) (toml_writes w)
         (stdout w) (stderr w ++ [m]) (toml_write_failure w)).

(** The file a failing [write_text] leaves. *)
Definition after_failed_write (w_toml : file) (f : write_failure) : file :=
  match f with
  | FailsAtOpen => w_toml
  | FailsAfterOpen remains => Content remains
  end.

(** [wrangler_toml.write_text(output)]: [true] when it succeeded, [false]
    when it raised. *)
Definition write_text (output : str) : M bool := fun w =>
  if toml_writable w then
    (Return true,
     World (environ w) (wrangler_local w) (wrangler_example w)
           (Content output) true (toml_writes w ++ [output])
           (stdout w) (stderr w) (toml_write_failure w))
  else
    (Return false,
     World (environ w) (wrangler_local w) (wrangler_example w)
           (after_failed_write (wrangler_toml w) (toml_write_failure w))
           false (toml_writes w ++ [output])
           (stdout w) (stderr w) (toml_write_failure w)).

(** The exit status of the process: 0 when [main] returns. *)
Definition exit_status {A} (r : result A * world) : N :=
  match fst r with
  | Return _ => 0
  | Exit code => code
  end.

(** *** Constants of the source *)
Definition QUOTE : char := 34.
Definition placeholder : str := lit "${D1_DATABASE_ID}".
Definition key_equals : str := lit "database_id = ".
Definition empty_assignment : str := key_equals ++ [QUOTE; QUOTE].

(** The pattern of lines 22 and 134: the key, [=] between optional
    whitespace, and a quoted non-empty group without quotes. *)
Definition value_pattern : Re.program :=
  Re.literal "database_id"
  ++ [Re.MAX_REPEAT Re.space; Re.LITERAL 61; Re.MAX_REPEAT Re.space;
      Re.LITERAL QUOTE; Re.MARK]
  ++ Re.plus Re.not_quote
  ++ [Re.MARK; Re.LITERAL QUOTE].

(** The pattern of line 34: 8-4-4-4-12 hexadecimal digits between [^]
    and [$]. *)
Definition uuid_pattern : Re.program :=
  [Re.AT_BEGINNING]
  ++ Re.times 8 Re.hex ++ [Re.LITERAL 45]
  ++ Re.times 4 Re.hex ++ [Re.LITERAL 45]
  ++ Re.times 4 Re.hex ++ [Re.LITERAL 45]
  ++ Re.times 4 Re.hex ++ [Re.LITERAL 45]
  ++ Re.times 12 Re.hex
  ++ [Re.AT_END].

(** The pattern of line 142: the leading whitespace as group 1. *)
Definition indent_pattern : Re.program :=
  [Re.AT_BEGINNING; Re.MARK; Re.MAX_REPEAT Re.space; Re.MARK].

(** The pattern of line 176, compiled with MULTILINE: a whole line made
    of the key and a quoted non-empty value. *)
Definition database_id_pattern : Re.program :=
  [Re.AT_BEGINNING_LINE; Re.MAX_REPEAT Re.space]
  ++ Re.literal "database_id"
  ++ [Re.MAX_REPEAT Re.space; Re.LITERAL 61; Re.MAX_REPEAT Re.space;
      Re.LITERAL QUOTE]
  ++ Re.plus Re.not_quote
  ++ [Re.LITERAL QUOTE; Re.MAX_REPEAT Re.space; Re.AT_END_LINE].

Definition nonempty_match (m : option (list str)) : bool :=
  match m with
  | Some _ => true
  | None => false
  end.

(** Python's truth value of an [Optional[str]]: [None] and the empty
    string are false. *)
Definition truthy (o : option str) : bool :=
  match o with
  | Some (_ :: _) => true
  | _ => false
  end.

Definition nonempty (s : str) : bool :=
  match s with
  | [] => false
  | _ :: _ => true
  end.

(** *** [get_database_id_from_local] (lines 14-27) *)
Definition get_database_id_from_local (wrangler_local_path : world -> file)
  : M (option str) :=
  w <- get ;;
  match wrangler_local_path w with
  | Missing => ret None
  | Unreadable => eprint WarnLocalUnreadable ;;; ret None
  | Content content =>
      match Re.search value_pattern content with
      | Some m => ret (Some (Py.strip (Re.group1 m)))
      | None => ret None
      end
  end.

(** *** [validate_database_id] (lines 30-36) *)
Definition validate_database_id (db_id : str) : bool :=
  match Re.match_ uuid_pattern db_id with
  | Some _ => true
  | None => false
  end.

(** *** [main] (lines 39-203), stage by stage *)

(** Lines 47-72: the value from the environment or the local file,
    trimmed.  The second [if not db_id] of the source is the [match]: only
    a non-empty string goes on. *)
Definition resolve_db_id : M (str * source) :=
  w <- get ;;
  let db_id := environ w in
  let source := EnvironmentVariable in
  p <- (if negb (truthy db_id)
        then (db_id <- get_database_id_from_local wrangler_local ;;
              ret (db_id, WranglerTomlLocal))
        else ret (db_id, source)) ;;
  match p with
  | (Some ((_ :: _) as db_id), source) =>
      let db_id := Py.strip db_id in
      if negb (nonempty db_id)
      then eprint ErrEmpty ;;; sys_exit 1
      else ret (db_id, source)
  | (_, _) =>
      eprint ErrNotFound ;;; eprint HintSetVariable ;;;
      eprint HintSeeExample ;;; sys_exit 1
  end.

(** Lines 74-82: the format check only warns. *)
Definition report_db_id (db_id : str) (source : source) : M unit :=
  (if negb (validate_database_id db_id)
   then eprint (WarnFormat (Py.slice_to 8 db_id)) ;;; eprint WarnContinuing
   else ret tt) ;;;
  print (InfoDatabaseId (Py.slice_to 8 db_id) (Py.slice_last 8 db_id) source).

(** Lines 84-98: the template. *)
Definition read_example : M str :=
  w <- get ;;
  match wrangler_example w with
  | Missing => eprint ErrExampleMissing ;;; sys_exit 1
  | Unreadable =>
      print InfoCreating ;;; eprint ErrExampleUnreadable ;;; sys_exit 1
  | Content content => print InfoCreating ;;; ret content
  end.

(** Lines 100-125: the substitution and its three gates. *)
Definition substitute (content db_id : str) : M str :=
  if negb (Py.contains placeholder content)
  then eprint ErrPlaceholderMissing ;;; sys_exit 1
  else
    let substituted_content := Py.replace content placeholder db_id in
    if Py.contains placeholder substituted_content
    then eprint ErrPlaceholderLeft ;;; sys_exit 1
    else if Py.contains empty_assignment substituted_content
    then eprint ErrEmptyAfterSubstitution ;;; sys_exit 1
    else ret substituted_content.

(** How the loop of lines 131-148 ends: with [found] set and one line
    assigned, at the exit of line 139, or with [found] still false. *)
Inductive scan : Type :=
| Found (lines : list str)
| EmptyValue
| NotFound.

(** Lines 141-146: the clean line, with the indentation of the original. *)
Definition clean_line (line db_value : str) : str :=
  let indent_str :=
    match Re.match_ indent_pattern line with
    | Some indent_match => Re.group1 indent_match
    | None => []
    end in
  indent_str ++ key_equals ++ [QUOTE] ++ db_value ++ [QUOTE].

(** Lines 131-148: the loop over [enumerate(lines)].  [todo] is what is
    left to visit, [i] the index of its head in [lines]. *)
Fixpoint clean_loop (lines : list str) (i : nat) (todo : list str) : scan :=
  match todo with
  | [] => NotFound
  | line :: todo' =>
      let stripped := Py.strip line in
      if Py.startswith stripped key_equals then
        match Re.search value_pattern line with
        | Some m =>
            let db_value := Py.strip (Re.group1 m) in
            if negb (nonempty db_value) then EmptyValue
            else Found (<[i := clean_line line db_value]> lines)
        | None => clean_loop lines (S i) todo'
        end
      else clean_loop lines (S i) todo'
  end.

(** Lines 127-152: the clean-up of the [database_id] line. *)
Definition clean_up (substituted_content : str) : M (list str) :=
  let lines := Py.splitlines substituted_content in
  match clean_loop lines 0 lines with
  | Found lines' => ret lines'
  | EmptyValue => eprint ErrValueEmpty ;;; sys_exit 1
  | NotFound => eprint ErrLineNotFound ;;; sys_exit 1
  end.

(** Lines 154-157: the text to write. *)
Definition join_lines (lines : list str) : str :=
  let output := Py.join [Py.LF] lines in
  if nonempty output && negb (Py.endswith output [Py.LF])
  then output ++ [Py.LF]
  else output.

(** Lines 159-171: the write, and the check that the file is there. *)
Definition write_toml (output : str) : M unit :=
  ok <- write_text output ;;
  if negb ok then eprint ErrWriteFailed ;;; sys_exit 1
  else
    w <- get ;;
    match wrangler_toml w with
    | Missing => eprint ErrDisappeared ;;; sys_exit 1
    | _ => ret tt
    end.

(** Lines 184-186: the lines that mention the key, numbered from 1. *)
Fixpoint dump_lines (line_num : nat) (lines : list str) : M unit :=
  match lines with
  | [] => ret tt
  | line :: lines' =>
      (if Py.contains (lit "database_id") line
       then eprint (DumpLine line_num line)
       else ret tt) ;;;
      dump_lines (S line_num) lines'
  end.

(** Lines 173-198: the file is read back and checked. *)
Definition final_verification : M unit :=
  w <- get ;;
  match wrangler_toml w with
  | Content final_content =>
      if negb (nonempty_match (Re.search database_id_pattern final_content))
      then eprint ErrFormatVerification ;;;
           dump_lines 1 (Py.splitlines final_content) ;;;
           sys_exit 1
      else if Py.contains placeholder final_content
      then eprint ErrPlaceholderInFinal ;;; sys_exit 1
      else ret tt
  | _ => eprint ErrVerifyFailed ;;; sys_exit 1
  end.

Definition main : M unit :=
  p <- resolve_db_id ;;
  let db_id := fst p in
  let source := snd p in
  report_db_id db_id source ;;;
  content <- read_example ;;
  substituted_content <- substitute content db_id ;;
  lines <- clean_up substituted_content ;;
  let output := join_lines lines in
  write_toml output ;;;
  final_verification ;;;
  print InfoSuccess ;;; print InfoSource ;;; print InfoTarget.

End Script.


(** * Properties *)

(** ** Facts about the [str] primitives *)
Module PyFacts.
Import Py.

(** The primitives on small inputs, as Python evaluates them. *)
Example splitlines_mixed_boundaries :
  splitlines (lit "a" ++ [CR; LF] ++ lit "b" ++ [CR] ++ lit "c" ++ [LF; LF])
  = [lit "a"; lit "b"; lit "c"; []].
Proof. reflexivity. Qed.

Example splitlines_final_boundary :
  splitlines [] = [] /\ splitlines [LF] = [[]] /\ splitlines (lit "a" ++ [LF]) = [lit "a"].
Proof. repeat split; reflexivity. Qed.

Example replace_left_to_right :
  replace (lit "x${A}y${A}${A") (lit "${A}") (lit "Q") = lit "xQyQ${A".
Proof. reflexivity. Qed.

Example strip_both_ends :
  strip ([9; 32] ++ lit "a b" ++ [32; LF]) = lit "a b".
Proof. reflexivity. Qed.

Example join_two_lines : join [LF] [lit "a"; lit "b"] = lit "a" ++ [LF] ++ lit "b".
Proof. reflexivity. Qed.

Lemma startswith_iff (s p : str) :
  startswith s p = true <-> exists t, s = p ++ t.
Proof.
  revert s; induction p as [|c p IH]; intros s; simpl.
  - split; [intros _; exists s; reflexivity | reflexivity].
  - destruct s as [|d s]; simpl.
    + split; [discriminate | intros [t Ht]; discriminate].
    + rewrite andb_true_iff, N.eqb_eq, IH. split.
      * intros [-> [t ->]]. exists t. reflexivity.
      * intros [t Ht]. injection Ht as -> ->. split; [reflexivity | eauto].
Qed.

Lemma startswith_app (p t : str) : startswith (p ++ t) p = true.
Proof. apply startswith_iff. eauto. Qed.

(** [p in s] holds exactly when [s] has [p] as a contiguous part. *)
Lemma contains_iff (p s : str) :
  contains p s = true <-> exists a b, s = a ++ p ++ b.
Proof.
  induction s as [|d s IH]; simpl.
  - rewrite orb_false_r, startswith_iff. split.
    + intros [t Ht]. exists [], t. exact Ht.
    + intros [a [b Hab]]. destruct a; [exists b; exact Hab | discriminate].
  - rewrite orb_true_iff, IH, startswith_iff. split.
    + intros [[t Ht] | [a [b Hab]]].
      * exists [], t. exact Ht.
      * exists (d :: a), b. rewrite Hab. reflexivity.
    + intros [a [b Hab]]. destruct a as [|e a].
      * left. exists b. exact Hab.
      * right. injection Hab as _ ->. eauto.
Qed.

Lemma contains_false_iff (p s : str) :
  contains p s = false <-> forall a b, s <> a ++ p ++ b.
Proof.
  rewrite <- not_true_iff_false, contains_iff. split.
  - intros H a b E. apply H. eauto.
  - intros H [a [b E]]. exact (H a b E).
Qed.

(** A text free of [p] has only parts free of [p]. *)
Lemma contains_false_part (p a s b : str) :
  contains p (a ++ s ++ b) = false -> contains p s = false.
Proof.
  rewrite !contains_false_iff. intros H x y ->.
  apply (H (a ++ x) (y ++ b)). rewrite <- !app_assoc. reflexivity.
Qed.

(** An occurrence of [p] in [a ++ c :: b], when [c] is not a character of
    [p], lies in [a] or in [b]. *)
Lemma contains_split (p a b : str) (c : char) :
  ~ In c p ->
  contains p (a ++ c :: b) = true ->
  contains p a = true \/ contains p b = true.
Proof.
  intros Hc. rewrite !contains_iff. intros [x [y E]].
  revert x E. induction a as [|d a IH]; intros x E; simpl in E.
  - right. destruct x as [|e x]; simpl in E.
    + destruct p as [|e p]; simpl in E.
      * exists [], b. reflexivity.
      * injection E as -> _. exfalso. apply Hc. left. reflexivity.
    + injection E as _ ->. eauto.
  - destruct x as [|e x]; simpl in E.
    + (* the occurrence starts at the head of [d :: a] *)
      clear IH. left. exists []. simpl.
      revert d a E. induction p as [|e p IHp]; intros d a E.
      * exists (d :: a). reflexivity.
      * simpl in E. injection E as <- E.
        destruct a as [|d' a]; simpl in E.
        -- destruct p as [|e' p]; simpl in E.
           ++ exists []. reflexivity.
           ++ injection E as -> _. exfalso. apply Hc. right. left. reflexivity.
        -- destruct (IHp (fun H => Hc (or_intror H)) d' a E) as [t Ht].
           exists t. simpl. rewrite Ht. reflexivity.
    + injection E as _ E. destruct (IH x E) as [[u [v ->]] | R].
      * left. exists (d :: u), v. reflexivity.
      * right. exact R.
Qed.

Lemma contains_head (c : char) (p s : str) :
  contains (c :: p) s = true -> In c s.
Proof.
  rewrite contains_iff. intros [a [b ->]].
  apply in_or_app. right. left. reflexivity.
Qed.

(** *** [dropwhile], [takewhile] and [strip] *)

Lemma takewhile_dropwhile (p : char -> bool) (s : str) :
  takewhile p s ++ dropwhile p s = s.
Proof.
  induction s as [|c s IH]; simpl; [reflexivity|].
  destruct (p c); simpl; [rewrite IH|]; reflexivity.
Qed.

Lemma takewhile_all (p : char -> bool) (s : str) :
  Forall (fun c => p c = true) (takewhile p s).
Proof.
  induction s as [|c s IH]; simpl; [constructor|].
  destruct (p c) eqn:E; [constructor; assumption | constructor].
Qed.

Lemma dropwhile_head (p : char -> bool) (s : str) (c : char) (t : str) :
  dropwhile p s = c :: t -> p c = false.
Proof.
  induction s as [|d s IH]; simpl; [discriminate|].
  destruct (p d) eqn:E; [exact IH | intros [= -> _]; exact E].
Qed.

Lemma dropwhile_stable (p : char -> bool) (s : str) :
  match s with [] => True | c :: _ => p c = false end -> dropwhile p s = s.
Proof. destruct s as [|c s]; simpl; [reflexivity | intros ->; reflexivity]. Qed.

Lemma dropwhile_idempotent (p : char -> bool) (s : str) :
  dropwhile p (dropwhile p s) = dropwhile p s.
Proof.
  apply dropwhile_stable. destruct (dropwhile p s) as [|c t] eqn:E; [exact I|].
  exact (dropwhile_head p s c t E).
Qed.

(** Taking while [p] holds stops exactly at the first character that
    fails [p]. *)
Lemma takewhile_app (p : char -> bool) (a b : str) :
  Forall (fun c => p c = true) a ->
  match b with [] => True | c :: _ => p c = false end ->
  takewhile p (a ++ b) = a /\ dropwhile p (a ++ b) = b.
Proof.
  intros Ha Hb. induction Ha as [|c a Hc Ha IH]; simpl.
  - destruct b as [|c b]; simpl; [split; reflexivity|].
    rewrite Hb. split; reflexivity.
  - rewrite Hc. destruct IH as [-> ->]. split; reflexivity.
Qed.

Lemma take_takewhile (p : char -> bool) (s : str) :
  take (length s - length (dropwhile p s)) s = takewhile p s.
Proof.
  rewrite <- (takewhile_dropwhile p s) at 1 3.
  rewrite length_app, Nat.add_sub.
  apply take_app_length.
Qed.

(** [rstrip] keeps a prefix, and what it drops is whitespace. *)
Lemma rstrip_prefix (s : str) :
  exists t, s = rstrip s ++ t /\ Forall (fun c => isspace c = true) t.
Proof.
  unfold rstrip. exists (rev (takewhile isspace (rev s))). split.
  - rewrite <- rev_app_distr, takewhile_dropwhile, rev_involutive. reflexivity.
  - apply Forall_rev, takewhile_all.
Qed.

(** [strip] keeps a contiguous part and drops whitespace around it. *)
Lemma strip_part (s : str) :
  exists a b, s = a ++ strip s ++ b
              /\ Forall (fun c => isspace c = true) a
              /\ Forall (fun c => isspace c = true) b.
Proof.
  unfold strip, lstrip. destruct (rstrip_prefix (dropwhile isspace s)) as [t [E Ht]].
  exists (takewhile isspace s), t. split; [|split; [apply takewhile_all | exact Ht]].
  rewrite <- E. symmetry. apply takewhile_dropwhile.
Qed.

Lemma strip_incl (s : str) (c : char) : In c (strip s) -> In c s.
Proof.
  destruct (strip_part s) as [a [b [E _]]]. intros H. rewrite E.
  apply in_or_app. right. apply in_or_app. left. exact H.
Qed.

Lemma rstrip_idempotent (s : str) : rstrip (rstrip s) = rstrip s.
Proof.
  unfold rstrip. rewrite rev_involutive, dropwhile_idempotent. reflexivity.
Qed.

Lemma strip_idempotent (s : str) : strip (strip s) = strip s.
Proof.
  unfold strip, lstrip.
  assert (H : dropwhile isspace (rstrip (dropwhile isspace s))
              = rstrip (dropwhile isspace s)).
  { apply dropwhile_stable.
    destruct (rstrip_prefix (dropwhile isspace s)) as [t [E _]].
    destruct (rstrip (dropwhile isspace s)) as [|c u]; [exact I|].
    apply (dropwhile_head isspace s c (u ++ t)). exact E. }
  rewrite H. apply rstrip_idempotent.
Qed.

Lemma endswith_iff (s p : str) :
  endswith s p = true <-> exists t, s = t ++ p.
Proof.
  unfold endswith. rewrite startswith_iff. split.
  - intros [t Ht]. exists (rev t).
    rewrite <- (rev_involutive s), Ht, rev_app_distr, rev_involutive. reflexivity.
  - intros [t ->]. exists (rev t). apply rev_app_distr.
Qed.

(** *** [splitlines] and [join] *)

Lemma splitlines_nil (s : str) : splitlines s = [] -> s = [].
Proof.
  destruct s as [|c s]; [reflexivity|]. simpl.
  destruct (islinebreak c); [discriminate|].
  destruct (splitlines s); discriminate.
Qed.

(** The first line is a prefix of the text. *)
Lemma splitlines_head (s l : str) (ls : list str) :
  splitlines s = l :: ls -> exists b, s = l ++ b.
Proof.
  revert l ls; induction s as [|c s IH]; intros l ls; simpl; [discriminate|].
  destruct (islinebreak c).
  - intros [= <- _]. exists (c :: s). reflexivity.
  - destruct (splitlines s) as [|l0 ls0] eqn:E.
    + intros [= <- _]. apply splitlines_nil in E. subst s. exists []. reflexivity.
    + intros [= <- _]. destruct (IH l0 ls0 eq_refl) as [b ->].
      exists b. reflexivity.
Qed.

(** Every line is a contiguous part of the text and holds no line
    boundary. *)
Lemma splitlines_lines (s : str) :
  Forall (fun l => (exists a b, s = a ++ l ++ b)
                   /\ Forall (fun c => islinebreak c = false) l)
         (splitlines s).
Proof.
  assert (H : forall n s, (length s <= n)%nat ->
            Forall (fun l => (exists a b, s = a ++ l ++ b)
                             /\ Forall (fun c => islinebreak c = false) l)
                   (splitlines s)).
  { clear s. induction n as [|n IH]; intros s Hn.
    - destruct s; [constructor | simpl in Hn; lia].
    - destruct s as [|c s]; [constructor|]. simpl in Hn.
      assert (Hweak : forall k t ls,
                 s = k ++ t ->
                 Forall (fun l => (exists a b, t = a ++ l ++ b)
                                  /\ Forall (fun c => islinebreak c = false) l) ls ->
                 Forall (fun l => (exists a b, c :: s = a ++ l ++ b)
                                  /\ Forall (fun c => islinebreak c = false) l) ls).
      { intros k t ls -> Ht. eapply Forall_impl; [exact Ht|].
        intros l [[a [b E]] Hl]. split; [|exact Hl].
        exists (c :: k ++ a), b. rewrite E. simpl. rewrite <- app_assoc. reflexivity. }
      simpl. destruct (islinebreak c) eqn:Hc.
      + constructor.
        * split; [exists [], (c :: s); reflexivity | constructor].
        * destruct (c =? CR).
          -- destruct s as [|d s']; [constructor|].
             destruct (d =? LF).
             ++ apply (Hweak [d] s' _ eq_refl). apply IH. simpl in Hn. lia.
             ++ apply (Hweak [] (d :: s') _ eq_refl). apply IH. lia.
          -- apply (Hweak [] s _ eq_refl). apply IH. lia.
      + specialize (IH s ltac:(lia)).
        destruct (splitlines s) as [|l ls] eqn:E.
        * constructor; [|constructor]. split.
          -- exists [], s. reflexivity.
          -- constructor; [exact Hc | constructor].
        * inversion IH as [|? ? [_ Hl] Hls]; subst.
          constructor.
          -- split; [|constructor; assumption].
             destruct (splitlines_head s l ls E) as [b ->].
             exists [], b. reflexivity.
          -- exact (Hweak [] s ls eq_refl Hls). }
  exact (H (length s) s (le_n _)).
Qed.

Lemma join_cons (sep l : str) (ls : list str) :
  join sep (l :: ls) = match ls with [] => l | _ :: _ => l ++ sep ++ join sep ls end.
Proof. reflexivity. Qed.

Lemma join_chars (sep : str) (ls : list str) (c : char) :
  In c (join sep ls) -> In c sep \/ exists l, In l ls /\ In c l.
Proof.
  induction ls as [|l ls IH]; [intros []|].
  rewrite join_cons. destruct ls as [|l' ls].
  - intros H. right. exists l. split; [left; reflexivity | exact H].
  - intros H. apply in_app_or in H as [H|H].
    + right. exists l. split; [left; reflexivity | exact H].
    + apply in_app_or in H as [H|H]; [left; exact H|].
      destruct (IH H) as [Hs | [l0 [Hl0 Hc]]]; [left; exact Hs|].
      right. exists l0. split; [right; exact Hl0 | exact Hc].
Qed.

(** Where a line stands in the joined text: after the start or a line
    feed, and before the end or a line feed. *)
Lemma join_lookup (ls : list str) (i : nat) (l : str) :
  ls !! i = Some l ->
  exists pre post,
    join [LF] ls = pre ++ l ++ post
    /\ (pre = [] \/ exists p, pre = p ++ [LF])
    /\ (post = [] \/ exists t, post = LF :: t).
Proof.
  revert i; induction ls as [|l0 ls IH]; intros i; [discriminate|].
  rewrite join_cons. destruct i as [|i]; simpl.
  - intros [= ->]. exists []. destruct ls as [|l' ls].
    + exists []. rewrite app_nil_r. auto.
    + eexists. split; [reflexivity|]. split; [auto | right; eauto].
  - intros Hl. destruct ls as [|l' ls]; [discriminate|].
    destruct (IH i Hl) as [pre [post [E [Hpre Hpost]]]].
    exists (l0 ++ [LF] ++ pre), post. rewrite E, <- !app_assoc. split; [reflexivity|].
    split; [|exact Hpost]. right. destruct Hpre as [-> | [p ->]].
    + exists l0. rewrite app_nil_r. reflexivity.
    + exists (l0 ++ [LF] ++ p). rewrite <- !app_assoc. reflexivity.
Qed.

(** Joining lines free of [p] with a separator foreign to [p] gives a
    text free of [p]. *)
Lemma contains_join (p : str) (c : char) (ls : list str) :
  p <> [] -> ~ In c p ->
  Forall (fun l => contains p l = false) ls ->
  contains p (join [c] ls) = false.
Proof.
  intros Hp Hc Hls. induction Hls as [|l ls Hl Hls IH].
  - destruct p; [contradiction | reflexivity].
  - rewrite join_cons. destruct ls as [|l' ls]; [exact Hl|].
    apply not_true_iff_false. intros H.
    apply (contains_split p l _ c Hc) in H as [H|H]; congruence.
Qed.

(** Splitting back a text made of plain lines and line feeds. *)
Lemma splitlines_app_line (l rest : str) :
  Forall (fun c => islinebreak c = false) l ->
  splitlines (l ++ LF :: rest) = l :: splitlines rest.
Proof.
  induction 1 as [|c l Hc Hl IH]; [reflexivity|].
  cbn [app splitlines]. rewrite Hc, IH. reflexivity.
Qed.

Lemma splitlines_line (l : str) :
  Forall (fun c => islinebreak c = false) l -> l <> [] -> splitlines l = [l].
Proof.
  induction 1 as [|c l Hc Hl IH]; [contradiction|]. intros _.
  cbn [splitlines]. rewrite Hc. destruct l as [|d l]; [reflexivity|].
  rewrite IH by discriminate. reflexivity.
Qed.

Lemma splitlines_join (ls : list str) (t l : str) :
  Forall (Forall (fun c => islinebreak c = false)) ls ->
  t = [] \/ t = [LF] ->
  In l ls -> l <> [] ->
  In l (splitlines (join [LF] ls ++ t)).
Proof.
  intros Hls Ht. induction Hls as [|l0 ls Hl0 Hls IH]; [intros []|].
  intros Hin Hne. rewrite join_cons. destruct ls as [|l1 ls].
  - destruct Hin as [->|[]]. destruct Ht as [-> | ->].
    + rewrite app_nil_r, splitlines_line by assumption. left. reflexivity.
    + rewrite (splitlines_app_line l [] Hl0). left. reflexivity.
  - rewrite <- !app_assoc. cbn [app]. rewrite (splitlines_app_line l0 _ Hl0).
    destruct Hin as [->|Hin]; [left; reflexivity | right; exact (IH Hin Hne)].
Qed.

End PyFacts.

(** ** Facts about the matcher *)
Module ReFacts.
Import Py Re PyFacts.

(** The character before the position reached after consuming [s]. *)
Fixpoint advance (prev : option char) (s : str) : option char :=
  match s with
  | [] => prev
  | c :: s' => advance (Some c) s'
  end.

(** [s] without the prefix [p], when it has it. *)
Fixpoint strip_prefix (p s : str) : option str :=
  match p, s with
  | [], _ => Some s
  | _ :: _, [] => None
  | c :: p', d :: s' => if d =? c then strip_prefix p' s' else None
  end.

Lemma strip_prefix_Some (p s t : str) :
  strip_prefix p s = Some t <-> s = p ++ t.
Proof.
  revert s; induction p as [|c p IH]; intros s; simpl.
  - split; [intros [= ->]; reflexivity | intros ->; reflexivity].
  - destruct s as [|d s]; [split; discriminate|].
    destruct (N.eqb_spec d c) as [->|Hne].
    + rewrite IH. split; [intros ->; reflexivity | intros [= ->]; reflexivity].
    + split; [discriminate | intros [= E _]; contradiction].
Qed.

(** One step of the matcher, opcode by opcode. *)
Lemma run_LITERAL (c : char) (rest : program) (prev : option char) (s : str) :
  run (LITERAL c :: rest) prev s =
  match s with
  | d :: s' => if d =? c then run rest (Some d) s' else None
  | [] => None
  end.
Proof. reflexivity. Qed.

Lemma run_IN (cls : char -> bool) (rest : program) (prev : option char) (s : str) :
  run (IN cls :: rest) prev s =
  match s with
  | d :: s' => if cls d then run rest (Some d) s' else None
  | [] => None
  end.
Proof. reflexivity. Qed.

Lemma run_MARK (rest : program) (prev : option char) (s : str) :
  run (MARK :: rest) prev s =
  match run rest prev s with
  | Some r => Some (s :: r)
  | None => None
  end.
Proof. reflexivity. Qed.

Lemma run_AT_BEGINNING (rest : program) (s : str) :
  run (AT_BEGINNING :: rest) None s = run rest None s.
Proof. reflexivity. Qed.

Lemma run_AT_BEGINNING_LINE (rest : program) (prev : option char) (s : str) :
  prev = None \/ prev = Some LF ->
  run (AT_BEGINNING_LINE :: rest) prev s = run rest prev s.
Proof. intros [-> | ->]; reflexivity. Qed.

Lemma run_AT_END_LINE (prev : option char) (s : str) :
  s = [] \/ (exists t, s = LF :: t) ->
  run [AT_END_LINE] prev s = Some [].
Proof. intros [-> | [t ->]]; reflexivity. Qed.

(** A run of literals consumes exactly that text. *)
Lemma run_literals (l : str) (rest : program) (prev : option char) (s : str) :
  run (map LITERAL l ++ rest) prev s =
  match strip_prefix l s with
  | Some t => run rest (advance prev l) t
  | None => None
  end.
Proof.
  revert prev s; induction l as [|c l IH]; intros prev s; [reflexivity|].
  destruct s as [|d s]; [reflexivity|].
  change (run (map LITERAL (c :: l) ++ rest) prev (d :: s))
    with (if d =? c then run (map LITERAL l ++ rest) (Some d) s else None).
  simpl. destruct (N.eqb_spec d c) as [->|_]; [apply IH | reflexivity].
Qed.

Lemma run_LITERAL_Some (c : char) (rest : program) (prev : option char)
      (s : str) (r : list str) :
  run (LITERAL c :: rest) prev s = Some r <->
  exists t, s = c :: t /\ run rest (Some c) t = Some r.
Proof.
  rewrite run_LITERAL. destruct s as [|d s].
  - split; [discriminate | intros [t [E _]]; discriminate E].
  - destruct (N.eqb_spec d c) as [->|Hne].
    + split; [eauto | intros [t [[= <-] H]]; exact H].
    + split; [discriminate | intros [t [[= E _] _]]; contradiction].
Qed.

(** [cls{n}] consumes exactly [n] characters of the class. *)
Lemma run_times_Some (cls : char -> bool) (n : nat) (rest : program)
      (prev : option char) (s : str) (r : list str) :
  run (times n cls ++ rest) prev s = Some r <->
  exists g t, s = g ++ t /\ length g = n
              /\ Forall (fun c => cls c = true) g
              /\ run rest (advance prev g) t = Some r.
Proof.
  revert prev s; induction n as [|n IH]; intros prev s.
  - simpl. split.
    + intros H. exists [], s. repeat split; [constructor | exact H].
    + intros [g [t [-> [Hlen [_ H]]]]].
      destruct g; [exact H | discriminate Hlen].
  - change (times (S n) cls ++ rest) with (IN cls :: (times n cls ++ rest)).
    rewrite run_IN. destruct s as [|d s].
    + split; [discriminate|]. intros [g [t [E [Hlen _]]]].
      destruct g; [discriminate Hlen | discriminate E].
    + destruct (cls d) eqn:Hd.
      * rewrite IH. split.
        -- intros [g [t [-> [Hlen [Hg H]]]]]. exists (d :: g), t.
           repeat split; [simpl; rewrite Hlen; reflexivity | constructor; assumption | exact H].
        -- intros [g [t [E [Hlen [Hg H]]]]]. destruct g as [|e g]; [discriminate Hlen|].
           injection E as <- ->. injection Hlen as Hlen.
           inversion Hg; subst. exists g, t. repeat split; assumption.
      * split; [discriminate|]. intros [g [t [E [Hlen [Hg _]]]]].
        destruct g as [|e g]; [discriminate Hlen|]. injection E as <- _.
        inversion Hg; subst. congruence.
Qed.

(** A greedy repeat keeps its longest run when the rest then matches. *)
Lemma run_repeat_longest (cls : char -> bool) (rest : program)
      (prev : option char) (s : str) (r : list str) :
  run rest (advance prev (takewhile cls s)) (dropwhile cls s) = Some r ->
  run (MAX_REPEAT cls :: rest) prev s = Some r.
Proof.
  revert prev; induction s as [|d s IH]; intros prev H; [exact H|].
  simpl in H |- *. destruct (cls d); [|exact H].
  simpl in H. apply IH in H. simpl in H. rewrite H. reflexivity.
Qed.

(** When the rest cannot start at a character of the class, a greedy
    repeat never gives back: it matches with its longest run or not at
    all. *)
Lemma run_repeat_exact (cls : char -> bool) (rest : program)
      (prev : option char) (s : str) :
  (forall q c t, cls c = true -> run rest q (c :: t) = None) ->
  run (MAX_REPEAT cls :: rest) prev s =
  run rest (advance prev (takewhile cls s)) (dropwhile cls s).
Proof.
  intros Hrest. revert prev; induction s as [|d s IH]; intros prev; [reflexivity|].
  simpl. destruct (cls d) eqn:E; [|reflexivity].
  specialize (IH (Some d)). simpl in IH. rewrite IH. simpl.
  destruct (run rest _ (dropwhile cls s)); [reflexivity|].
  apply Hrest, E.
Qed.

(** If the rest matches right here, the repeat followed by the rest
    matches too (possibly further on). *)
Lemma run_repeat_some (cls : char -> bool) (rest : program)
      (prev : option char) (s : str) :
  is_Some (run rest prev s) -> is_Some (run (MAX_REPEAT cls :: rest) prev s).
Proof.
  intros H. destruct s as [|d s]; [exact H|].
  simpl. destruct (cls d); [|exact H].
  match goal with |- is_Some (match ?x with _ => _ end) => destruct x end;
    [eexists; reflexivity | exact H].
Qed.

(** Sufficient conditions for a match, opcode by opcode. *)
Lemma advance_snoc (prev : option char) (s : str) (c : char) :
  advance prev (s ++ [c]) = Some c.
Proof. revert prev; induction s as [|d s IH]; intros prev; [reflexivity | apply IH]. Qed.

Lemma matches_LITERAL (c : char) (rest : program) (prev : option char) (t : str) :
  is_Some (run rest (Some c) t) -> is_Some (run (LITERAL c :: rest) prev (c :: t)).
Proof. rewrite run_LITERAL, N.eqb_refl. exact id. Qed.

Lemma matches_IN (cls : char -> bool) (c : char) (rest : program)
      (prev : option char) (t : str) :
  cls c = true ->
  is_Some (run rest (Some c) t) -> is_Some (run (IN cls :: rest) prev (c :: t)).
Proof. intros Hc. rewrite run_IN, Hc. exact id. Qed.

Lemma matches_literals (l : str) (rest : program) (prev : option char) (t : str) :
  is_Some (run rest (advance prev l) t) ->
  is_Some (run (map LITERAL l ++ rest) prev (l ++ t)).
Proof.
  rewrite run_literals, (proj2 (strip_prefix_Some l (l ++ t) t) eq_refl). exact id.
Qed.

Lemma matches_MAX_REPEAT (cls : char -> bool) (rest : program)
      (prev : option char) (a b : str) :
  Forall (fun c => cls c = true) a ->
  match b with [] => True | c :: _ => cls c = false end ->
  is_Some (run rest (advance prev a) b) ->
  is_Some (run (MAX_REPEAT cls :: rest) prev (a ++ b)).
Proof.
  intros Ha Hb [r Hr]. exists r. apply run_repeat_longest.
  destruct (takewhile_app cls a b Ha Hb) as [-> ->]. exact Hr.
Qed.

(** [search] returns the match at the first position that has one. *)
Lemma search_from_None (prog : program) (prev : option char) (s : str) :
  search_from prog prev s = None <->
  forall a b, s = a ++ b -> run prog (advance prev a) b = None.
Proof.
  revert prev; induction s as [|c s IH]; intros prev; simpl.
  - destruct (run prog prev []) eqn:E; split.
    + discriminate.
    + intros H. rewrite <- E. apply (H [] []). reflexivity.
    + intros _ a b Hab. symmetry in Hab. apply app_eq_nil in Hab as [-> ->]. exact E.
    + reflexivity.
  - destruct (run prog prev (c :: s)) eqn:E.
    + split; [discriminate|]. intros H. rewrite <- E. apply (H [] (c :: s)). reflexivity.
    + rewrite IH. split.
      * intros H a b Hab. destruct a as [|d a]; simpl in Hab.
        -- subst b. exact E.
        -- injection Hab as <- ->. apply (H a b). reflexivity.
      * intros H a b ->. apply (H (c :: a) b). reflexivity.
Qed.

Lemma search_from_first (prog : program) (prev : option char)
      (a b : str) (r : list str) :
  (forall x y, a ++ b = x ++ y -> (length x < length a)%nat ->
               run prog (advance prev x) y = None) ->
  run prog (advance prev a) b = Some r ->
  search_from prog prev (a ++ b) = Some r.
Proof.
  revert prev; induction a as [|c a IH]; intros prev Hmin Hrun; simpl in *.
  - destruct b; simpl; rewrite Hrun; reflexivity.
  - assert (H0 : run prog prev (c :: a ++ b) = None)
      by (apply (Hmin [] (c :: a ++ b)); [reflexivity | simpl; lia]).
    rewrite H0. apply IH; [|exact Hrun].
    intros x y Hxy Hlen. apply (Hmin (c :: x) y); [rewrite Hxy; reflexivity | simpl; lia].
Qed.

Lemma search_from_Some (prog : program) (prev : option char)
      (s : str) (r : list str) :
  search_from prog prev s = Some r ->
  exists a b, s = a ++ b /\ run prog (advance prev a) b = Some r
              /\ forall x y, s = x ++ y -> (length x < length a)%nat ->
                             run prog (advance prev x) y = None.
Proof.
  revert prev; induction s as [|c s IH]; intros prev; simpl.
  - destruct (run prog prev []) eqn:E; [|discriminate].
    intros [= ->]. exists [], []. split; [reflexivity|]. split; [exact E|].
    intros x y _ Hlen. simpl in Hlen. lia.
  - destruct (run prog prev (c :: s)) eqn:E.
    + intros [= ->]. exists [], (c :: s). split; [reflexivity|]. split; [exact E|].
      intros x y _ Hlen. simpl in Hlen. lia.
    + intros H. destruct (IH _ H) as [a [b [-> [Hrun Hmin]]]].
      exists (c :: a), b. split; [reflexivity|]. split; [exact Hrun|].
      intros x y Hxy Hlen. destruct x as [|d x]; simpl in Hxy.
      * subst y. exact E.
      * injection Hxy as <- Hxy. apply (Hmin x y Hxy). simpl in Hlen. lia.
Qed.

Lemma search_matches (prog : program) (a b : str) :
  is_Some (run prog (advance None a) b) -> is_Some (search prog (a ++ b)).
Proof.
  intros [r Hr]. destruct (search prog (a ++ b)) as [m|] eqn:E; [eauto|].
  unfold search in E. rewrite search_from_None in E.
  rewrite (E a b eq_refl) in Hr. discriminate.
Qed.

End ReFacts.

(** ** What the patterns of the script match *)
Module Patterns.
Import Py Re PyFacts ReFacts Script.

(** The patterns on small inputs, as [re] evaluates them. *)
Example value_pattern_spans_lines :
  option_map group1 (search value_pattern (lit "# database_id=" ++ [LF; 34] ++ lit " 12 " ++ [34]))
  = Some (lit " 12 ").
Proof. reflexivity. Qed.

Example database_id_pattern_whole_line :
  nonempty_match (search database_id_pattern
                    (lit "[[x]]" ++ [LF] ++ lit "  database_id = " ++ [34]
                     ++ lit "abc" ++ [34; LF; LF])) = true
  /\ nonempty_match (search database_id_pattern
                       (lit "database_id = " ++ [34] ++ lit "abc" ++ [34] ++ lit " #"))
     = false.
Proof. split; reflexivity. Qed.

(** The marks [value_pattern] leaves when it matches at the head of [s]:
    the text after the opening quote and the text from the closing one. *)
Definition value_marks (s : str) : option (list str) :=
  match strip_prefix (lit "database_id") s with
  | Some s1 =>
      match dropwhile space s1 with
      | 61 :: s2 =>
          match dropwhile space s2 with
          | 34 :: s3 =>
              match takewhile not_quote s3, dropwhile not_quote s3 with
              | _ :: _, 34 :: s5 => Some [s3; 34 :: s5]
              | _, _ => None
              end
          | _ => None
          end
      | _ => None
      end
  | None => None
  end.

Lemma space_not_equals (c : char) : space c = true -> (c =? 61) = false.
Proof.
  intros H. destruct (N.eqb_spec c 61) as [->|]; [discriminate H | reflexivity].
Qed.

Lemma space_not_quote (c : char) : space c = true -> (c =? 34) = false.
Proof.
  intros H. destruct (N.eqb_spec c 34) as [->|]; [discriminate H | reflexivity].
Qed.

Lemma run_value_pattern (prev : option char) (s : str) :
  run value_pattern prev s = value_marks s.
Proof.
  unfold value_pattern, value_marks, literal, QUOTE.
  rewrite run_literals.
  destruct (strip_prefix _ s) as [s1|]; [|reflexivity].
  cbn [app plus].
  rewrite run_repeat_exact
    by (intros q c t Hc; rewrite run_LITERAL, (space_not_equals c Hc); reflexivity).
  destruct (dropwhile space s1) as [|c s2]; rewrite run_LITERAL; [reflexivity|].
  destruct (N.eqb_spec c 61) as [->|Hc].
  2:{ destruct c as [|p]; [reflexivity|].
      repeat (destruct p as [p|p|]; try reflexivity); contradiction. }
  rewrite run_repeat_exact
    by (intros q c t Hc; rewrite run_LITERAL, (space_not_quote c Hc); reflexivity).
  destruct (dropwhile space s2) as [|c s3]; rewrite run_LITERAL; [reflexivity|].
  destruct (N.eqb_spec c 34) as [->|Hc].
  2:{ destruct c as [|p]; [reflexivity|].
      repeat (destruct p as [p|p|]; try reflexivity); contradiction. }
  rewrite run_MARK, run_IN.
  destruct s3 as [|d s4]; [reflexivity|].
  cbn [takewhile dropwhile].
  destruct (not_quote d) eqn:Hd.
  2:{ unfold not_quote in Hd. apply negb_false_iff, N.eqb_eq in Hd. subst d.
      reflexivity. }
  rewrite run_repeat_exact.
  2:{ intros q c t Hc. rewrite run_MARK, run_LITERAL. unfold not_quote in Hc.
      apply negb_true_iff in Hc. rewrite Hc. reflexivity. }
  rewrite run_MARK, run_LITERAL.
  destruct (dropwhile not_quote s4) as [|c s5]; [reflexivity|].
  destruct (N.eqb_spec c 34) as [->|Hc]; [reflexivity|].
  destruct c as [|p]; [reflexivity|].
  repeat (destruct p as [p|p|]; try reflexivity); contradiction.
Qed.

(** [s] starts with an assignment of [v]: the key, [=] between optional
    whitespace, and [v], non-empty and free of quotes, between quotes. *)
Definition assigns (s v : str) : Prop :=
  exists ws1 ws2 post,
    s = lit "database_id" ++ ws1 ++ [61] ++ ws2 ++ [QUOTE] ++ v ++ [QUOTE] ++ post
    /\ Forall (fun c => isspace c = true) ws1
    /\ Forall (fun c => isspace c = true) ws2
    /\ v <> [] /\ ~ In QUOTE v.

Lemma not_quote_all (v : str) :
  Forall (fun c => not_quote c = true) v <-> ~ In QUOTE v.
Proof.
  induction v as [|c v IH]; simpl.
  - split; [intros _ [] | constructor].
  - split.
    + intros H. inversion H as [|? ? Hc Hv]; subst. intros [E | Hin].
      * subst c. discriminate Hc.
      * apply IH in Hv. contradiction.
    + intros H. constructor.
      * unfold not_quote. apply negb_true_iff, N.eqb_neq. intros ->. apply H. left. reflexivity.
      * apply IH. intros Hin. apply H. right. exact Hin.
Qed.

Lemma value_marks_assigns (s v : str) :
  (exists m, value_marks s = Some m /\ group1 m = v) <-> assigns s v.
Proof.
  unfold value_marks, assigns. split.
  - intros [m [Hm Hv]].
    destruct (strip_prefix _ s) as [s1|] eqn:E1; [|discriminate].
    apply strip_prefix_Some in E1.
    destruct (dropwhile space s1) as [|c s2] eqn:E2; [discriminate|].
    destruct (N.eqb_spec c 61) as [->|Hc].
    2:{ destruct c as [|p]; [discriminate|].
        repeat (destruct p as [p|p|]; try discriminate); contradiction. }
    destruct (dropwhile space s2) as [|c s3] eqn:E3; [discriminate|].
    destruct (N.eqb_spec c 34) as [->|Hc].
    2:{ destruct c as [|p]; [discriminate|].
        repeat (destruct p as [p|p|]; try discriminate); contradiction. }
    destruct (takewhile not_quote s3) as [|d v'] eqn:E4; [discriminate|].
    destruct (dropwhile not_quote s3) as [|c s5] eqn:E5; [discriminate|].
    destruct (N.eqb_spec c 34) as [->|Hc].
    2:{ destruct c as [|p]; [discriminate|].
        repeat (destruct p as [p|p|]; try discriminate); contradiction. }
    injection Hm as <-.
    pose proof (take_takewhile not_quote s3) as Hg. rewrite E5, E4 in Hg.
    assert (Hv' : v = d :: v') by (rewrite <- Hv; exact Hg).
    clear Hv Hg. subst v.
    exists (takewhile space s1), (takewhile space s2), s5.
    split.
    + rewrite E1. f_equal.
      rewrite <- (takewhile_dropwhile space s1) at 1. f_equal. rewrite E2.
      simpl. f_equal.
      rewrite <- (takewhile_dropwhile space s2) at 1. f_equal. rewrite E3.
      simpl. f_equal.
      rewrite <- (takewhile_dropwhile not_quote s3) at 1. rewrite E4, E5.
      reflexivity.
    + split; [apply takewhile_all|]. split; [apply takewhile_all|].
      split; [discriminate|]. apply not_quote_all. rewrite <- E4.
      apply takewhile_all.
  - intros [ws1 [ws2 [post [-> [H1 [H2 [Hne Hq]]]]]]].
    rewrite (proj2 (strip_prefix_Some _ _ _) eq_refl).
    destruct (takewhile_app space ws1 ([61] ++ ws2 ++ [QUOTE] ++ v ++ [QUOTE] ++ post) H1 eq_refl)
      as [_ ->].
    cbn [app].
    destruct (takewhile_app space ws2 ([QUOTE] ++ v ++ [QUOTE] ++ post) H2 eq_refl)
      as [_ E]. cbn [app] in E. rewrite E. clear E. unfold QUOTE at 1.
    apply not_quote_all in Hq.
    destruct (takewhile_app not_quote v ([QUOTE] ++ post) Hq eq_refl) as [E4 E5].
    cbn [app] in E4, E5. rewrite E4, E5.
    destruct v as [|d v]; [contradiction|]. unfold QUOTE at 1.
    eexists. split; [reflexivity|].
    pose proof (take_takewhile not_quote ((d :: v) ++ QUOTE :: post)) as Hg.
    rewrite E5, E4 in Hg. exact Hg.
Qed.

(** [v] is assigned in [s] right after the prefix [pre]; and the first
    assignment in [s], in text order, is of [v]. *)
Definition assigned_at (s pre v : str) : Prop :=
  exists rest, s = pre ++ rest /\ assigns rest v.

Definition first_assigned (s v : str) : Prop :=
  exists pre,
    assigned_at s pre v
    /\ forall pre' v', assigned_at s pre' v' -> (length pre <= length pre')%nat.

Lemma run_value_assigns (prev : option char) (s v : str) :
  (exists m, run value_pattern prev s = Some m /\ group1 m = v) <-> assigns s v.
Proof. rewrite run_value_pattern. apply value_marks_assigns. Qed.

Lemma search_value_Some (s : str) (m : list str) :
  search value_pattern s = Some m -> first_assigned s (group1 m).
Proof.
  intros H. apply search_from_Some in H as [a [b [-> [Hrun Hmin]]]].
  exists a. split.
  - exists b. split; [reflexivity|]. apply (run_value_assigns (advance None a)). eauto.
  - intros pre' v' [rest [E Hv']].
    destruct (le_lt_dec (length a) (length pre')) as [Hle|Hlt]; [exact Hle|].
    apply (run_value_assigns (advance None pre')) in Hv' as [m' [Hm' _]].
    rewrite (Hmin pre' rest E Hlt) in Hm'. discriminate.
Qed.

Lemma search_value_first (s v : str) :
  first_assigned s v ->
  exists m, search value_pattern s = Some m /\ group1 m = v.
Proof.
  intros [pre [[rest [-> Hv]] Hmin]].
  apply (run_value_assigns (advance None pre)) in Hv as [m [Hm Hg]].
  exists m. split; [|exact Hg].
  apply search_from_first; [|exact Hm].
  intros x y E Hlen.
  destruct (run value_pattern (advance None x) y) as [m'|] eqn:E'; [|reflexivity].
  exfalso. assert (Ha : assigned_at (pre ++ rest) x (group1 m')).
  { exists y. split; [exact E|]. apply (run_value_assigns (advance None x)). eauto. }
  apply Hmin in Ha. lia.
Qed.

Lemma search_value_None (s : str) :
  search value_pattern s = None <-> forall pre v, ~ assigned_at s pre v.
Proof.
  unfold search. rewrite search_from_None. split.
  - intros H pre v [rest [E Hv]].
    apply (run_value_assigns (advance None pre)) in Hv as [m [Hm _]].
    rewrite (H pre rest E) in Hm. discriminate.
  - intros H a b E.
    destruct (run value_pattern (advance None a) b) as [m|] eqn:E'; [|reflexivity].
    exfalso. apply (H a (group1 m)). exists b. split; [exact E|].
    apply (run_value_assigns (advance None a)). eauto.
Qed.

End Patterns.

(** ** The secret resolver: [get_database_id_from_local] *)
Section LocalFile.
Import Py Re PyFacts ReFacts Patterns Script.

(** A world whose only content is the local override file. *)
Definition world_with_local (content : str) : world :=
  World None (Content content) Missing Missing true [] [] [] FailsAtOpen.

(** An assignment of the letter x with a blank on each side of it inside
    the quotes. *)
Definition padded_assignment : str :=
  key_equals ++ [QUOTE; 32; 120; 32; QUOTE].

(** C9, as stated, fails: on [padded_assignment] the first occurrence of
    the pattern captures the letter with the blanks around it, and the
    function returns the letter alone. *)
Lemma local_value_is_not_the_raw_group :
  ~ (forall (w : world) (content v : str),
        wrangler_local w = Content content ->
        first_assigned content v ->
        fst (get_database_id_from_local wrangler_local w) = Return (Some v)).
Proof.
  intros H.
  specialize (H (world_with_local padded_assignment) padded_assignment
                [32; 120; 32] eq_refl).
  assert (Hfirst : first_assigned padded_assignment [32; 120; 32]).
  { exists []. split.
    - exists padded_assignment. split; [reflexivity|].
      exists [32], [32], []. split; [reflexivity|].
      split; [repeat constructor|]. split; [repeat constructor|].
      split; [discriminate|].
      unfold QUOTE. simpl. intros [E|[E|[E|[]]]]; discriminate E.
    - intros pre' v' _. simpl. lia. }
  specialize (H Hfirst). vm_compute in H. discriminate H.
Qed.

(** C9, amended: the function returns the group captured at the first
    occurrence of the pattern in the file, wherever that occurrence
    stands, with surrounding whitespace trimmed; it returns [None] when
    the file has no occurrence, does not exist or cannot be read.  It
    never exits and only a read failure prints. *)
Theorem local_value_is_first_assignment_trimmed (w : world) :
  (forall content v,
      wrangler_local w = Content content ->
      first_assigned content v ->
      get_database_id_from_local wrangler_local w = (Return (Some (strip v)), w))
  /\ (forall content,
         wrangler_local w = Content content ->
         (forall pre v, ~ assigned_at content pre v) ->
         get_database_id_from_local wrangler_local w = (Return None, w))
  /\ (wrangler_local w = Missing ->
      get_database_id_from_local wrangler_local w = (Return None, w))
  /\ (wrangler_local w = Unreadable ->
      fst (get_database_id_from_local wrangler_local w) = Return None).
Proof.
  unfold get_database_id_from_local, bind, get, ret.
  split; [|split; [|split]].
  - intros content v -> Hv.
    apply search_value_first in Hv as [m [-> <-]]. reflexivity.
  - intros content -> Hnone.
    apply search_value_None in Hnone. rewrite Hnone. reflexivity.
  - intros ->. reflexivity.
  - intros ->. reflexivity.
Qed.

(** A file whose first assignment is commented out and padded, before a
    section that assigns another value. *)
Definition commented_local : str :=
  lit "# " ++ key_equals ++ [QUOTE] ++ lit " abc " ++ [QUOTE; LF]
  ++ lit "[[d1_databases]]" ++ [LF]
  ++ key_equals ++ [QUOTE] ++ lit "def" ++ [QUOTE; LF].

Lemma local_value_is_first_assignment_trimmed_witness :
  get_database_id_from_local wrangler_local (world_with_local commented_local)
  = (Return (Some (lit "abc")), world_with_local commented_local)
  /\ get_database_id_from_local wrangler_local (world_with_local (lit "name = x"))
     = (Return None, world_with_local (lit "name = x")).
Proof.
  split.
  - apply (proj1 (local_value_is_first_assignment_trimmed
                    (world_with_local commented_local))
                 commented_local (lit " abc ") eq_refl).
    apply (search_value_Some commented_local
             [lit " abc " ++ [QUOTE; LF] ++ lit "[[d1_databases]]" ++ [LF]
              ++ key_equals ++ [QUOTE] ++ lit "def" ++ [QUOTE; LF];
              [QUOTE; LF] ++ lit "[[d1_databases]]" ++ [LF]
              ++ key_equals ++ [QUOTE] ++ lit "def" ++ [QUOTE; LF]]).
    vm_compute. reflexivity.
  - apply (proj1 (proj2 (local_value_is_first_assignment_trimmed
                           (world_with_local (lit "name = x"))))
                 (lit "name = x") eq_refl).
    apply search_value_None. vm_compute. reflexivity.
Defined.

End LocalFile.

(** ** The format validator: [validate_database_id] *)
Section Validator.
Import Py Re PyFacts ReFacts Script.

(** A group of exactly [n] hexadecimal digits, of either case. *)
Definition hex_group (n : nat) (g : str) : Prop :=
  length g = n /\ Forall (fun c => hex c = true) g.

(** The UUID shape: groups of 8, 4, 4, 4 and 12 hexadecimal digits
    separated by hyphens, and nothing else. *)
Definition uuid_shaped (s : str) : Prop :=
  exists g1 g2 g3 g4 g5,
    s = g1 ++ [45] ++ g2 ++ [45] ++ g3 ++ [45] ++ g4 ++ [45] ++ g5
    /\ hex_group 8 g1 /\ hex_group 4 g2 /\ hex_group 4 g3
    /\ hex_group 4 g4 /\ hex_group 12 g5.

Lemma uuid_shaped_length (s : str) : uuid_shaped s -> length s = 36%nat.
Proof.
  intros [g1 [g2 [g3 [g4 [g5 [-> [[L1 _] [[L2 _] [[L3 _] [[L4 _] [L5 _]]]]]]]]]]].
  rewrite !length_app. simpl. lia.
Qed.

(** What the function accepts: a UUID-shaped string, with or without
    one line feed after it. *)
Lemma validate_database_id_iff (s : str) :
  validate_database_id s = true <->
  uuid_shaped s \/ exists u, uuid_shaped u /\ s = u ++ [LF].
Proof.
  unfold validate_database_id, match_, uuid_pattern.
  change ([AT_BEGINNING] ++ ?p) with (AT_BEGINNING :: p).
  cbn [run]. split.
  - destruct (run _ None s) as [r|] eqn:E; [intros _ | discriminate].
    apply run_times_Some in E as [g1 [t1 [-> [L1 [H1 E]]]]].
    apply run_LITERAL_Some in E as [t [-> E]].
    apply run_times_Some in E as [g2 [t2 [-> [L2 [H2 E]]]]].
    apply run_LITERAL_Some in E as [t [-> E]].
    apply run_times_Some in E as [g3 [t3 [-> [L3 [H3 E]]]]].
    apply run_LITERAL_Some in E as [t [-> E]].
    apply run_times_Some in E as [g4 [t4 [-> [L4 [H4 E]]]]].
    apply run_LITERAL_Some in E as [t [-> E]].
    apply run_times_Some in E as [g5 [t5 [-> [L5 [H5 E]]]]].
    assert (Hu : uuid_shaped (g1 ++ [45] ++ g2 ++ [45] ++ g3 ++ [45] ++ g4 ++ [45] ++ g5)).
    { exists g1, g2, g3, g4, g5. unfold hex_group. repeat split; assumption. }
    simpl in E. destruct t5 as [|d [|d' t5]]; [| |discriminate].
    + left. rewrite app_nil_r. exact Hu.
    + right. destruct (N.eqb_spec d LF) as [->|]; [|discriminate].
      eexists. split; [exact Hu|]. rewrite <- !app_assoc. reflexivity.
  - assert (Hrun : forall u t, uuid_shaped u -> t = [] \/ t = [LF] ->
              is_Some (run (times 8 hex ++ [LITERAL 45] ++ times 4 hex ++ [LITERAL 45]
                            ++ times 4 hex ++ [LITERAL 45] ++ times 4 hex
                            ++ [LITERAL 45] ++ times 12 hex ++ [AT_END]) None (u ++ t))).
    { intros u t [g1 [g2 [g3 [g4 [g5 [-> [[L1 H1] [[L2 H2] [[L3 H3] [[L4 H4] [L5 H5]]]]]]]]]]] Ht.
      exists []. rewrite <- !app_assoc.
      apply run_times_Some. exists g1; eexists. repeat split; [assumption..|].
      apply run_LITERAL_Some; eexists; split; [reflexivity|].
      apply run_times_Some. exists g2; eexists. repeat split; [assumption..|].
      apply run_LITERAL_Some; eexists; split; [reflexivity|].
      apply run_times_Some. exists g3; eexists. repeat split; [assumption..|].
      apply run_LITERAL_Some; eexists; split; [reflexivity|].
      apply run_times_Some. exists g4; eexists. repeat split; [assumption..|].
      apply run_LITERAL_Some; eexists; split; [reflexivity|].
      apply run_times_Some. exists g5; eexists. repeat split; [assumption..|].
      destruct Ht as [-> | ->]; reflexivity. }
    intros [Hu | [u [Hu ->]]].
    + destruct (Hrun s [] Hu (or_introl eq_refl)) as [r Hr].
      rewrite app_nil_r in Hr. rewrite Hr. reflexivity.
    + destruct (Hrun u [LF] Hu (or_intror eq_refl)) as [r Hr].
      rewrite Hr. reflexivity.
Qed.

(** A trimmed string does not end with whitespace. *)
Lemma strip_last (s t : str) (c : char) : strip s = t ++ [c] -> isspace c = false.
Proof.
  unfold strip, rstrip. intros H.
  apply (f_equal (@rev N)) in H. rewrite rev_involutive, rev_app_distr in H.
  exact (dropwhile_head isspace _ c (rev t) H).
Qed.

(** On a trimmed string, which is what [main] passes, the function accepts
    exactly the UUID shape. *)
Lemma validate_database_id_trimmed (s : str) :
  strip s = s -> (validate_database_id s = true <-> uuid_shaped s).
Proof.
  intros Hs. rewrite validate_database_id_iff. split; [|auto].
  intros [H | [u [_ E]]]; [exact H|].
  rewrite E in Hs. apply strip_last in Hs. discriminate Hs.
Qed.

Definition sample_uuid : str := lit "12345678-1234-1234-1234-123456789012".

Lemma sample_uuid_shaped : uuid_shaped sample_uuid.
Proof.
  exists (lit "12345678"), (lit "1234"), (lit "1234"), (lit "1234"),
         (lit "123456789012").
  unfold hex_group. repeat split; try reflexivity; repeat constructor.
Qed.

(** A direct call: [$] also matches just before a final newline, so a
    UUID followed by one line feed passes.  [main] trims the value before
    the call and never passes such a string. *)
Example validate_database_id_accepts_trailing_newline :
  validate_database_id (sample_uuid ++ [LF]) = true
  /\ ~ uuid_shaped (sample_uuid ++ [LF])
  /\ validate_database_id sample_uuid = true
  /\ validate_database_id (sample_uuid ++ [32]) = false
  /\ validate_database_id (32 :: sample_uuid) = false.
Proof.
  split; [vm_compute; reflexivity|].
  split; [intros H; apply uuid_shaped_length in H; discriminate H|].
  repeat split; vm_compute; reflexivity.
Qed.

End Validator.

(** ** The line normalizer: the loop of [main], lines 127-152 *)
Section Normalizer.
Import Py Re PyFacts ReFacts Patterns Script.

(** The rewritten line keeps the leading whitespace of the original. *)
Lemma clean_line_indent (line db_value : str) :
  clean_line line db_value
  = takewhile isspace line ++ key_equals ++ [QUOTE] ++ db_value ++ [QUOTE].
Proof.
  unfold clean_line, match_, indent_pattern.
  rewrite run_AT_BEGINNING, run_MARK.
  rewrite (run_repeat_longest space [MARK] None line [dropwhile space line])
    by reflexivity.
  unfold group1. rewrite take_takewhile. reflexivity.
Qed.

(** A line the loop stops at: its trimmed form starts with the key and
    the pattern matches in it. *)
Definition carrier (line : str) : bool :=
  startswith (strip line) key_equals
  && nonempty_match (search value_pattern line).

Lemma clean_loop_skip (lines : list str) (i : nat) (line : str) (todo : list str) :
  carrier line = false ->
  clean_loop lines i (line :: todo) = clean_loop lines (S i) todo.
Proof.
  unfold carrier. cbn [clean_loop].
  destruct (startswith (strip line) key_equals); [|reflexivity].
  destruct (search value_pattern line); [discriminate | reflexivity].
Qed.

Lemma clean_loop_stop (lines : list str) (i : nat) (line : str)
      (todo : list str) (m : list str) :
  startswith (strip line) key_equals = true ->
  search value_pattern line = Some m ->
  clean_loop lines i (line :: todo)
  = if nonempty (strip (group1 m))
    then Found (<[i := clean_line line (strip (group1 m))]> lines)
    else EmptyValue.
Proof.
  intros H1 H2. cbn [clean_loop]. rewrite H1, H2.
  destruct (nonempty (strip (group1 m))); reflexivity.
Qed.

Lemma clean_loop_first (lines skipped : list str) (i : nat) (line : str)
      (todo : list str) (m : list str) :
  Forall (fun l => carrier l = false) skipped ->
  startswith (strip line) key_equals = true ->
  search value_pattern line = Some m ->
  clean_loop lines i (skipped ++ line :: todo)
  = if nonempty (strip (group1 m))
    then Found (<[(i + length skipped)%nat := clean_line line (strip (group1 m))]> lines)
    else EmptyValue.
Proof.
  intros Hs H1 H2. revert i. induction Hs as [|l skipped Hl Hs IH]; intros i.
  - simpl. rewrite Nat.add_0_r. apply clean_loop_stop; assumption.
  - simpl app. rewrite clean_loop_skip by exact Hl. rewrite IH.
    simpl. rewrite Nat.add_succ_r. reflexivity.
Qed.

(** When the loop finds its line, it is the first carrier among those
    left, its value is not blank, and only that line is assigned. *)
Lemma clean_loop_Found (lines : list str) (i : nat) (todo lines' : list str) :
  clean_loop lines i todo = Found lines' ->
  exists skipped line rest m,
    todo = skipped ++ line :: rest
    /\ Forall (fun l => carrier l = false) skipped
    /\ startswith (strip line) key_equals = true
    /\ search value_pattern line = Some m
    /\ strip (group1 m) <> []
    /\ lines' = <[(i + length skipped)%nat := clean_line line (strip (group1 m))]> lines.
Proof.
  revert i; induction todo as [|line todo IH]; intros i; [discriminate|].
  destruct (carrier line) eqn:Hc.
  - unfold carrier in Hc. apply andb_true_iff in Hc as [H1 H2].
    destruct (search value_pattern line) as [m|] eqn:Hm; [|discriminate].
    rewrite (clean_loop_stop lines i line todo m H1 Hm).
    destruct (strip (group1 m)) as [|c v] eqn:Hv; [discriminate|].
    intros [= <-]. exists [], line, todo, m.
    rewrite Hv, Nat.add_0_r. repeat split; try assumption; try constructor.
    discriminate.
  - rewrite clean_loop_skip by exact Hc. intros H.
    destruct (IH _ H) as [skipped [l [rest [m [-> [Hs [H1 [H2 [H3 ->]]]]]]]]].
    exists (line :: skipped), l, rest, m.
    repeat split; try assumption; [constructor; assumption|].
    simpl. rewrite Nat.add_succ_r. reflexivity.
Qed.

(** A blank value between the quotes, then a proper assignment. *)
Definition blank_then_value : str :=
  key_equals ++ [QUOTE; 32; QUOTE; LF]
  ++ key_equals ++ [QUOTE] ++ lit "abc" ++ [QUOTE] ++ lit " # x".

(** C4, as stated, fails: the second line of [blank_then_value] has a
    trimmed form that starts with the key and parses as a quoted,
    non-empty value, yet the normalizer rewrites nothing: it stops at the
    first line, whose value is blank, and exits. *)
Lemma normalizer_may_stop_before_a_good_line :
  ~ (forall (w : world) (substituted : str) (i : nat) (line : str) (m : list str),
        splitlines substituted !! i = Some line ->
        startswith (strip line) key_equals = true ->
        search value_pattern line = Some m ->
        strip (group1 m) <> [] ->
        exists lines',
          fst (clean_up substituted w) = Return lines'
          /\ lines' !! i = Some (takewhile isspace line ++ key_equals ++ [QUOTE]
                                 ++ strip (group1 m) ++ [QUOTE])
          /\ forall j, j <> i -> lines' !! j = splitlines substituted !! j).
Proof.
  intros H.
  destruct (H (World None Missing Missing Missing true [] [] [] FailsAtOpen)
              blank_then_value 1%nat
              (key_equals ++ [QUOTE] ++ lit "abc" ++ [QUOTE] ++ lit " # x")
              [lit "abc" ++ [QUOTE] ++ lit " # x"; [QUOTE] ++ lit " # x"])
    as [lines' [Hexit _]];
    try (vm_compute; reflexivity).
  - vm_compute. discriminate.
  - vm_compute in Hexit. discriminate Hexit.
Qed.

(** C4, amended: if line [i] of the substituted text is the first whose
    trimmed form starts with [database_id = ] and in which the pattern
    matches, and the value it captures is not blank, then the normalizer
    returns the lines with line [i] set to its own leading whitespace
    followed by the key, the equals sign and the trimmed value in quotes;
    every other
    line is the same, so at most one line differs, and none when line
    [i] had that form already. *)
Theorem normalizer_rewrites_first_carrier
        (w : world) (substituted : str) (i : nat) (line : str) (m : list str) :
  splitlines substituted !! i = Some line ->
  startswith (strip line) key_equals = true ->
  search value_pattern line = Some m ->
  strip (group1 m) <> [] ->
  (forall j l, (j < i)%nat -> splitlines substituted !! j = Some l ->
               carrier l = false) ->
  clean_up substituted w
  = (Return (<[i := takewhile isspace line ++ key_equals ++ [QUOTE]
                     ++ strip (group1 m) ++ [QUOTE]]>
               (splitlines substituted)), w)
  /\ (exists body,
         line = takewhile isspace line ++ body
         /\ Forall (fun c => isspace c = true) (takewhile isspace line)
         /\ match body with [] => True | c :: _ => isspace c = false end)
  /\ forall lines',
        fst (clean_up substituted w) = Return lines' ->
        length lines' = length (splitlines substituted)
        /\ forall j, j <> i -> lines' !! j = splitlines substituted !! j.
Proof.
  intros Hi H1 H2 H3 Hfirst.
  assert (Hloop : clean_loop (splitlines substituted) 0 (splitlines substituted)
                  = Found (<[i := clean_line line (strip (group1 m))]>
                             (splitlines substituted))).
  { rewrite <- (take_drop_middle _ _ _ Hi) at 2.
    rewrite (clean_loop_first _ _ _ _ _ m); [| |exact H1|exact H2].
    - destruct (strip (group1 m)); [contradiction|]. simpl.
      rewrite length_take_le; [reflexivity|].
      apply Nat.lt_le_incl, (lookup_lt_Some _ _ _ Hi).
    - apply Forall_forall. intros l Hl.
      apply list_elem_of_lookup in Hl as [j Hj].
      apply lookup_take_Some in Hj as [Hj Hlt]. exact (Hfirst j l Hlt Hj). }
  unfold clean_up. rewrite Hloop, clean_line_indent.
  split; [reflexivity|]. split.
  - exists (dropwhile isspace line).
    split; [symmetry; apply takewhile_dropwhile|].
    split; [apply takewhile_all|].
    destruct (dropwhile isspace line) as [|c t] eqn:E; [exact I|].
    exact (dropwhile_head isspace line c t E).
  - intros lines' [= <-]. split; [apply length_insert|].
    intros j Hj. apply list_lookup_insert_ne. congruence.
Qed.

Definition indented_assignment : str :=
  lit "[[d1_databases]]" ++ [LF]
  ++ lit "  " ++ key_equals ++ [QUOTE] ++ lit " abc " ++ [QUOTE] ++ lit " # x" ++ [LF]
  ++ key_equals ++ [QUOTE] ++ lit "def" ++ [QUOTE] ++ lit " # y".

Lemma normalizer_rewrites_first_carrier_witness :
  clean_up indented_assignment (World None Missing Missing Missing true [] [] [] FailsAtOpen)
  = (Return [lit "[[d1_databases]]";
             lit "  " ++ key_equals ++ [QUOTE] ++ lit "abc" ++ [QUOTE];
             key_equals ++ [QUOTE] ++ lit "def" ++ [QUOTE] ++ lit " # y"],
     World None Missing Missing Missing true [] [] [] FailsAtOpen).
Proof.
  destruct (normalizer_rewrites_first_carrier
              (World None Missing Missing Missing true [] [] [] FailsAtOpen)
              indented_assignment 1%nat
              (lit "  " ++ key_equals ++ [QUOTE] ++ lit " abc " ++ [QUOTE] ++ lit " # x")
              [lit " abc " ++ [QUOTE] ++ lit " # x"; [QUOTE] ++ lit " # x"])
    as [Hrun _].
  - vm_compute. reflexivity.
  - vm_compute. reflexivity.
  - vm_compute. reflexivity.
  - vm_compute. discriminate.
  - intros j l Hj Hl. assert (j = 0%nat) by lia. subst j.
    vm_compute in Hl. injection Hl as <-. vm_compute. reflexivity.
  - rewrite Hrun. vm_compute. reflexivity.
Defined.

End Normalizer.

(** ** The text written and the final verification *)
Section Verification.
Import Py Re PyFacts ReFacts Patterns Script.

(** A well-formed line: leading whitespace, the key, the equals sign and,
    in quotes, a value that is non-empty and free of quotes. *)
Definition well_formed_line (l : str) : Prop :=
  exists indent v,
    l = indent ++ key_equals ++ [QUOTE] ++ v ++ [QUOTE]
    /\ Forall (fun c => isspace c = true) indent
    /\ v <> [] /\ ~ In QUOTE v.

Lemma clean_line_well_formed (line : str) (m : list str) :
  search value_pattern line = Some m ->
  strip (group1 m) <> [] ->
  well_formed_line (clean_line line (strip (group1 m))).
Proof.
  intros Hm Hv. rewrite clean_line_indent.
  exists (takewhile isspace line), (strip (group1 m)).
  split; [reflexivity|]. split; [apply takewhile_all|]. split; [exact Hv|].
  intros Hq. apply strip_incl in Hq.
  apply search_value_Some in Hm as [pre [[rest [_ Ha]] _]].
  destruct Ha as [ws1 [ws2 [post [_ [_ [_ [_ Hnq]]]]]]]. contradiction.
Qed.

(** The pattern of the final verification matches at the start of a
    well-formed line. *)
Lemma database_id_pattern_matches (l post : str) (prev : option char) :
  well_formed_line l ->
  prev = None \/ prev = Some LF ->
  post = [] \/ (exists t, post = LF :: t) ->
  is_Some (run database_id_pattern prev (l ++ post)).
Proof.
  intros [indent [v [-> [Hi [Hv Hq]]]]] Hprev Hpost.
  apply not_quote_all in Hq.
  destruct v as [|d v]; [contradiction|]. inversion Hq as [|? ? Hd Hv']; subst.
  unfold database_id_pattern.
  change ([AT_BEGINNING_LINE; MAX_REPEAT space] ++ ?p)
    with (AT_BEGINNING_LINE :: MAX_REPEAT space :: p).
  rewrite run_AT_BEGINNING_LINE by exact Hprev.
  change key_equals with (lit "database_id" ++ [32] ++ [61] ++ [32]).
  rewrite <- !app_assoc.
  apply matches_MAX_REPEAT; [exact Hi | reflexivity|].
  unfold literal. apply matches_literals. cbn [app plus].
  apply (matches_MAX_REPEAT space _ _ [32]); [repeat constructor | reflexivity|].
  apply matches_LITERAL.
  apply (matches_MAX_REPEAT space _ _ [32]); [repeat constructor | reflexivity|].
  apply matches_LITERAL.
  apply matches_IN; [exact Hd|].
  apply matches_MAX_REPEAT; [exact Hv' | reflexivity|].
  apply matches_LITERAL.
  apply run_repeat_some. rewrite run_AT_END_LINE by exact Hpost.
  eexists; reflexivity.
Qed.

(** A well-formed line among [lines] makes the final pattern match in
    the text written. *)
Lemma join_lines_matches (lines : list str) (i : nat) (l : str) :
  lines !! i = Some l ->
  well_formed_line l ->
  is_Some (search database_id_pattern (join_lines lines)).
Proof.
  intros Hl Hwf. destruct (join_lookup lines i l Hl) as [pre [post [E [Hpre Hpost]]]].
  assert (Hout : exists post', join_lines lines = pre ++ l ++ post'
                               /\ (post' = [] \/ exists t, post' = LF :: t)).
  { unfold join_lines. rewrite E.
    destruct (_ && _).
    - exists (post ++ [LF]). rewrite <- !app_assoc. split; [reflexivity|].
      right. destruct Hpost as [-> | [t ->]]; eexists; reflexivity.
    - exists post. split; [reflexivity | exact Hpost]. }
  destruct Hout as [post' [-> Hpost']].
  apply search_matches, database_id_pattern_matches; [exact Hwf | | exact Hpost'].
  destruct Hpre as [-> | [p ->]]; [left; reflexivity | right; apply advance_snoc].
Qed.

(** Membership in a literal list of characters, decided by evaluation. *)
Ltac not_in_literal :=
  let H := fresh in
  vm_compute; intros H;
  repeat (destruct H as [H|H]; [discriminate H|]); exact H.

Lemma quote_not_in_placeholder : ~ In QUOTE placeholder.
Proof. not_in_literal. Qed.

Lemma line_feed_not_in_placeholder : ~ In LF placeholder.
Proof. not_in_literal. Qed.

(** The value the pattern captures in a line is a part of that line. *)
Lemma captured_value_part (line : str) (m : list str) :
  search value_pattern line = Some m ->
  exists a b, line = a ++ strip (group1 m) ++ b.
Proof.
  intros Hm. apply search_value_Some in Hm as [pre [[rest [-> Ha]] _]].
  destruct Ha as [ws1 [ws2 [post [-> _]]]].
  destruct (strip_part (group1 m)) as [a [b [E _]]].
  exists (pre ++ lit "database_id" ++ ws1 ++ [61] ++ ws2 ++ [QUOTE] ++ a),
         (b ++ [QUOTE] ++ post).
  rewrite E at 1. rewrite <- !app_assoc. reflexivity.
Qed.

Lemma clean_line_placeholder_free (line : str) (m : list str) :
  contains placeholder line = false ->
  search value_pattern line = Some m ->
  contains placeholder (clean_line line (strip (group1 m))) = false.
Proof.
  intros Hline Hm. rewrite clean_line_indent.
  apply not_true_iff_false. intros H.
  replace (takewhile isspace line ++ key_equals ++ [QUOTE] ++ strip (group1 m) ++ [QUOTE])
    with ((takewhile isspace line ++ key_equals)
          ++ QUOTE :: (strip (group1 m) ++ QUOTE :: []))
    in H by (rewrite <- app_assoc; reflexivity).
  apply (contains_split _ _ _ _ quote_not_in_placeholder) in H as [H|H].
  - apply contains_head in H. apply in_app_or in H as [H|H].
    + pose proof (takewhile_all isspace line) as Hall.
      rewrite List.Forall_forall in Hall. apply Hall in H. discriminate H.
    + revert H. not_in_literal.
  - apply (contains_split _ _ _ _ quote_not_in_placeholder) in H as [H|H];
      [|vm_compute in H; discriminate H].
    destruct (captured_value_part line m Hm) as [a [b E]].
    rewrite E in Hline. apply contains_false_part in Hline. congruence.
Qed.

(** The lines the loop returns: those of the text with one replaced. *)
Lemma clean_loop_lines (lines lines' : list str) :
  clean_loop lines 0 lines = Found lines' ->
  exists skipped line rest m,
    lines = skipped ++ line :: rest
    /\ lines' = skipped ++ clean_line line (strip (group1 m)) :: rest
    /\ search value_pattern line = Some m
    /\ strip (group1 m) <> [].
Proof.
  intros H. apply clean_loop_Found in H
    as [skipped [line [rest [m [E [_ [_ [Hm [Hv ->]]]]]]]]].
  exists skipped, line, rest, m. split; [exact E|]. split; [|split; assumption].
  rewrite E at 1. simpl.
  rewrite insert_app_r_alt by lia. rewrite Nat.sub_diag. reflexivity.
Qed.

(** The text written is free of the placeholder when the substituted
    text is. *)
Lemma written_placeholder_free (substituted : str) (lines' : list str) :
  contains placeholder substituted = false ->
  clean_loop (splitlines substituted) 0 (splitlines substituted) = Found lines' ->
  contains placeholder (join_lines lines') = false.
Proof.
  intros Hsub Hloop.
  destruct (clean_loop_lines _ _ Hloop) as [skipped [line [rest [m [E [-> [Hm Hv]]]]]]].
  pose proof (splitlines_lines substituted) as Hlines. rewrite E in Hlines.
  assert (Hfree : Forall (fun l => contains placeholder l = false)
                         (skipped ++ line :: rest)).
  { eapply Forall_impl; [exact Hlines|]. intros l [[a [b Hab]] _].
    rewrite Hab in Hsub. exact (contains_false_part _ _ _ _ Hsub). }
  apply Forall_app in Hfree as [Hs Hr]. inversion Hr as [|? ? Hline Hrest]; subst.
  assert (Hjoin : contains placeholder
                    (join [LF] (skipped ++ clean_line line (strip (group1 m)) :: rest))
                  = false).
  { apply contains_join; [discriminate | exact line_feed_not_in_placeholder|].
    apply Forall_app. split; [exact Hs|]. constructor; [|exact Hrest].
    apply clean_line_placeholder_free; assumption. }
  unfold join_lines. destruct (_ && _); [|exact Hjoin].
  apply not_true_iff_false. intros H.
  apply (contains_split _ _ _ _ line_feed_not_in_placeholder) in H as [H|H];
    [congruence | vm_compute in H; discriminate H].
Qed.

(** The text written has a well-formed line, which the final pattern
    finds. *)
Lemma written_well_formed (lines lines' : list str) :
  clean_loop lines 0 lines = Found lines' ->
  (exists l, In l lines' /\ well_formed_line l)
  /\ is_Some (search database_id_pattern (join_lines lines')).
Proof.
  intros Hloop.
  destruct (clean_loop_lines _ _ Hloop) as [skipped [line [rest [m [E [-> [Hm Hv]]]]]]].
  pose proof (clean_line_well_formed line m Hm Hv) as Hwf. split.
  - eexists. split; [|exact Hwf]. apply in_or_app. right. left. reflexivity.
  - apply (join_lines_matches _ (length skipped) (clean_line line (strip (group1 m))));
      [|exact Hwf].
    rewrite lookup_app_r by lia. rewrite Nat.sub_diag. reflexivity.
Qed.

(** The characters of the rewritten line come from the original line or
    from the literal text of the key, the equals sign and the quote. *)
Lemma clean_line_chars (line : str) (m : list str) (c : char) :
  search value_pattern line = Some m ->
  In c (clean_line line (strip (group1 m))) ->
  In c line \/ In c (key_equals ++ [QUOTE]).
Proof.
  intros Hm. rewrite clean_line_indent. intros H.
  apply in_app_or in H as [H|H].
  { left. rewrite <- (takewhile_dropwhile isspace line). apply in_or_app. left. exact H. }
  apply in_app_or in H as [H|H].
  { right. apply in_or_app. left. exact H. }
  apply in_app_or in H as [H|H].
  { right. apply in_or_app. right. exact H. }
  apply in_app_or in H as [H|H].
  - left. destruct (captured_value_part line m Hm) as [a [b ->]].
    apply in_or_app. right. apply in_or_app. left. exact H.
  - right. apply in_or_app. right. exact H.
Qed.

(** The lines the loop returns hold no line boundary. *)
Lemma clean_loop_plain_lines (substituted : str) (lines' : list str) :
  clean_loop (splitlines substituted) 0 (splitlines substituted) = Found lines' ->
  Forall (Forall (fun c => islinebreak c = false)) lines'.
Proof.
  intros Hloop.
  destruct (clean_loop_lines _ _ Hloop) as [skipped [line [rest [m [E [-> [Hm Hv]]]]]]].
  pose proof (splitlines_lines substituted) as Hlines. rewrite E in Hlines.
  assert (Hplain : Forall (Forall (fun c => islinebreak c = false))
                          (skipped ++ line :: rest)).
  { eapply Forall_impl; [exact Hlines|]. intros l [_ Hl]. exact Hl. }
  clear Hlines. apply Forall_app in Hplain as [Hs Hr].
  inversion Hr as [|? ? Hline Hrest]; subst. clear Hr.
  apply Forall_app. split; [exact Hs|]. constructor; [|exact Hrest].
  apply List.Forall_forall. intros c Hc.
  apply (clean_line_chars line m c Hm) in Hc as [Hc|Hc].
  - rewrite List.Forall_forall in Hline. exact (Hline c Hc).
  - vm_compute in Hc.
    repeat (destruct Hc as [<-|Hc]; [reflexivity|]). contradiction.
Qed.

Lemma well_formed_line_nonempty (l : str) : well_formed_line l -> l <> [].
Proof.
  intros [indent [v [-> _]]]. destruct indent; discriminate.
Qed.

(** The text written: its only line boundaries are line feeds, it ends
    with one, and its lines include a well-formed one. *)
Lemma written_line_feeds (substituted : str) (lines' : list str) :
  clean_loop (splitlines substituted) 0 (splitlines substituted) = Found lines' ->
  (forall c, In c (join_lines lines') -> islinebreak c = true -> c = LF)
  /\ (exists o, join_lines lines' = o ++ [LF])
  /\ exists l, In l (splitlines (join_lines lines')) /\ well_formed_line l.
Proof.
  intros Hloop.
  pose proof (clean_loop_plain_lines _ _ Hloop) as Hls.
  destruct (written_well_formed _ _ Hloop) as [[l [Hl Hwf]] _].
  assert (Hjoin : forall c, In c (join [LF] lines') -> islinebreak c = true -> c = LF).
  { intros c Hc Hb. apply join_chars in Hc as [[<-|[]] | [l0 [Hl0 Hc]]]; [reflexivity|].
    rewrite List.Forall_forall in Hls. specialize (Hls l0 Hl0).
    rewrite List.Forall_forall in Hls. rewrite (Hls c Hc) in Hb. discriminate Hb. }
  pose proof (well_formed_line_nonempty l Hwf) as Hne.
  unfold join_lines. destruct (nonempty (join [LF] lines')) eqn:Hn.
  - destruct (endswith (join [LF] lines') [LF]) eqn:Hend; simpl.
    + split; [exact Hjoin|]. split; [apply endswith_iff; exact Hend|].
      exists l. split; [|exact Hwf].
      rewrite <- (app_nil_r (join [LF] lines')).
      apply splitlines_join; auto.
    + split; [|split; [eexists; reflexivity|]].
      * intros c Hc Hb. apply in_app_or in Hc as [Hc|[<-|[]]]; [|reflexivity].
        exact (Hjoin c Hc Hb).
      * exists l. split; [|exact Hwf]. apply splitlines_join; auto.
  - exfalso. apply list_elem_of_In, list_elem_of_lookup in Hl as [i Hi].
    destruct (join_lookup lines' i l Hi) as [pre [post [Ej _]]].
    rewrite Ej in Hn. destruct pre; [|discriminate Hn].
    destruct l; [contradiction | discriminate Hn].
Qed.

End Verification.

(** ** The substitution of one placeholder by a UUID *)
Section Substitution.
Import Py Re PyFacts ReFacts Script.

(** The number of positions of [s] at which [p] starts. *)
Fixpoint occurrences (p s : str) : nat :=
  ((if startswith s p then 1 else 0)
   + match s with
     | [] => 0
     | _ :: s' => occurrences p s'
     end)%nat.

Lemma occurrences_none (p s : str) :
  occurrences p s = 0%nat -> contains p s = false.
Proof.
  induction s as [|c s IH]; simpl.
  - destruct (startswith [] p); [discriminate | reflexivity].
  - destruct (startswith (c :: s) p); [discriminate|]. simpl. exact IH.
Qed.

(** One occurrence: the text splits around it in one way only. *)
Lemma occurrences_one (p s : str) :
  p <> [] -> occurrences p s = 1%nat ->
  exists a b, s = a ++ p ++ b /\ forall x y, s = x ++ p ++ y -> x = a.
Proof.
  intros Hp. induction s as [|c s IH]; simpl.
  - destruct p; [contradiction | discriminate].
  - destruct (startswith (c :: s) p) eqn:E.
    + intros H. injection H as H. apply occurrences_none in H.
      apply startswith_iff in E as [b E]. exists [], b. split; [exact E|].
      intros x y Hxy. destruct x as [|d x]; [reflexivity|].
      injection Hxy as _ Hxy. rewrite contains_false_iff in H.
      destruct (H x y Hxy).
    + simpl. intros H. destruct (IH H) as [a [b [-> Hu]]].
      exists (c :: a), b. split; [reflexivity|].
      intros x y Hxy. destruct x as [|d x].
      * simpl in Hxy. rewrite Hxy, startswith_app in E. discriminate E.
      * injection Hxy as <- Hxy. rewrite (Hu x y Hxy). reflexivity.
Qed.

Lemma replace_from_skip (p new x b : str) :
  replace_from p new (length x) (x ++ b) = replace_from p new 0 b.
Proof. induction x as [|c x IH]; [reflexivity | exact IH]. Qed.

Lemma replace_from_free (p new s : str) :
  contains p s = false -> replace_from p new 0 s = s.
Proof.
  induction s as [|c s IH]; [reflexivity|]. simpl.
  intros H. apply orb_false_iff in H as [-> H]. rewrite (IH H). reflexivity.
Qed.

(** Replacing the only occurrence. *)
Lemma replace_once (p new a b : str) :
  p <> [] ->
  (forall x y, a ++ p ++ b = x ++ p ++ y -> x = a) ->
  replace (a ++ p ++ b) p new = a ++ new ++ b
  /\ contains p a = false /\ contains p b = false.
Proof.
  intros Hp Hu.
  assert (Ha : contains p a = false).
  { apply contains_false_iff. intros u v ->.
    specialize (Hu u (v ++ p ++ b)). rewrite <- !app_assoc in Hu.
    specialize (Hu eq_refl). apply (f_equal (@length N)) in Hu.
    rewrite !length_app in Hu. destruct p; [contradiction | simpl in Hu; lia]. }
  assert (Hb : contains p b = false).
  { apply contains_false_iff. intros u v ->.
    specialize (Hu (a ++ p ++ u) v). rewrite <- !app_assoc in Hu.
    specialize (Hu eq_refl). apply (f_equal (@length N)) in Hu.
    rewrite !length_app in Hu. destruct p; [contradiction | simpl in Hu; lia]. }
  split; [|split; assumption].
  unfold replace. destruct p as [|c p]; [contradiction|]. clear Hp Ha.
  induction a as [|d a IH]; cbn [app] in *.
  - cbn [replace_from].
    pose proof (startswith_app (c :: p) b) as Hs. cbn [app] in Hs. rewrite Hs.
    replace (length (c :: p) - 1)%nat with (length p) by (simpl; lia).
    rewrite replace_from_skip, (replace_from_free _ _ _ Hb). reflexivity.
  - cbn [replace_from].
    destruct (startswith (d :: a ++ c :: p ++ b) (c :: p)) eqn:E.
    + apply startswith_iff in E as [y E].
      specialize (Hu [] y E). discriminate Hu.
    + rewrite IH; [reflexivity|].
      intros x y Hxy. specialize (Hu (d :: x) y).
      cbn [app] in Hu. rewrite Hxy in Hu. specialize (Hu eq_refl).
      injection Hu as ->. reflexivity.
Qed.

(** An occurrence cannot start inside a run that lacks its first
    character. *)
Lemma contains_after (c : char) (p g b : str) :
  ~ In c g -> contains (c :: p) (g ++ b) = true -> contains (c :: p) b = true.
Proof.
  induction g as [|d g IH]; intros Hc H; [exact H|].
  simpl in H. destruct (N.eqb_spec d c) as [->|_].
  - exfalso. apply Hc. left. reflexivity.
  - simpl in H. apply IH; [|exact H]. intros Hin. apply Hc. right. exact Hin.
Qed.

Lemma contains_rev (p s : str) : contains (rev p) (rev s) = contains p s.
Proof.
  apply eq_true_iff_eq. rewrite !contains_iff. split.
  - intros [a [b E]]. exists (rev b), (rev a).
    rewrite <- (rev_involutive s), E, !rev_app_distr, rev_involutive, app_assoc.
    reflexivity.
  - intros [a [b ->]]. exists (rev b), (rev a).
    rewrite !rev_app_distr, app_assoc. reflexivity.
Qed.

(** Nor can it end inside a run that lacks its last character. *)
Lemma contains_before (c : char) (p a g : str) :
  ~ In c g -> contains (p ++ [c]) (a ++ g) = true -> contains (p ++ [c]) a = true.
Proof.
  intros Hc H. rewrite <- contains_rev in H |- *.
  rewrite rev_app_distr in H |- *. rewrite rev_app_distr in H.
  simpl in H |- *. apply (contains_after c (rev p) (rev g)); [|exact H].
  intros Hin. apply Hc. apply in_rev. exact Hin.
Qed.

Lemma hex_not_in_placeholder_ends (g : str) :
  Forall (fun c => hex c = true) g -> ~ In 36 g /\ ~ In 125 g.
Proof.
  intros Hg. rewrite List.Forall_forall in Hg.
  split; intros H; apply Hg in H; discriminate H.
Qed.

Lemma hyphen_not_in_placeholder : ~ In 45 placeholder.
Proof.
  vm_compute. intros H.
  repeat (destruct H as [H|H]; [discriminate H|]). exact H.
Qed.

(** A UUID put between two texts free of the placeholder makes no new
    occurrence. *)
Lemma uuid_makes_no_placeholder (u a b : str) :
  uuid_shaped u ->
  contains placeholder a = false ->
  contains placeholder b = false ->
  contains placeholder (a ++ u ++ b) = false.
Proof.
  intros [g1 [g2 [g3 [g4 [g5 [-> [[_ H1] [[_ H2] [[_ H3] [[_ H4] [_ H5]]]]]]]]]]] Ha Hb.
  apply hex_not_in_placeholder_ends in H1 as [_ H1], H2 as [H2 _], H3 as [H3 _],
        H4 as [H4 _], H5 as [H5 _].
  apply not_true_iff_false. intros H.
  replace (a ++ (g1 ++ [45] ++ g2 ++ [45] ++ g3 ++ [45] ++ g4 ++ [45] ++ g5) ++ b)
    with ((a ++ g1) ++ 45 :: (g2 ++ 45 :: (g3 ++ 45 :: (g4 ++ 45 :: (g5 ++ b)))))
    in H by (rewrite <- !app_assoc; reflexivity).
  apply (contains_split _ _ _ _ hyphen_not_in_placeholder) in H as [H|H].
  { change placeholder with (lit "${D1_DATABASE_ID" ++ [125]) in H.
    apply (contains_before 125 _ a g1 H1) in H.
    change (lit "${D1_DATABASE_ID" ++ [125]) with placeholder in H. congruence. }
  apply (contains_split _ _ _ _ hyphen_not_in_placeholder) in H as [H|H].
  { apply contains_head in H. contradiction. }
  apply (contains_split _ _ _ _ hyphen_not_in_placeholder) in H as [H|H].
  { apply contains_head in H. contradiction. }
  apply (contains_split _ _ _ _ hyphen_not_in_placeholder) in H as [H|H].
  { apply contains_head in H. contradiction. }
  change placeholder with (36 :: lit "{D1_DATABASE_ID}") in H.
  apply (contains_after 36 _ g5 b H5) in H.
  change (36 :: lit "{D1_DATABASE_ID}") with placeholder in H. congruence.
Qed.

(** With one placeholder in the template and a UUID for value, the
    substituted text is free of the placeholder. *)
Lemma uuid_substitution_free (template u : str) :
  uuid_shaped u ->
  occurrences placeholder template = 1%nat ->
  contains placeholder template = true
  /\ contains placeholder (replace template placeholder u) = false.
Proof.
  intros Hu Hone.
  apply occurrences_one in Hone as [a [b [-> Huniq]]]; [|discriminate].
  split; [apply contains_iff; eauto|].
  destruct (replace_once placeholder u a b ltac:(discriminate) Huniq) as [-> [Ha Hb]].
  apply uuid_makes_no_placeholder; assumption.
Qed.

End Substitution.

(** ** The substitution of every placeholder by a UUID *)
Section SubstitutionAll.
Import Py Re PyFacts ReFacts Script.

(** The first occurrence of [p] in a text that has one. *)
Lemma first_occurrence (p s : str) :
  contains p s = true ->
  exists a b, s = a ++ p ++ b
              /\ forall x y, s = x ++ p ++ y -> (length a <= length x)%nat.
Proof.
  induction s as [|c s IH]; simpl.
  - rewrite orb_false_r. intros H. apply startswith_iff in H as [b E].
    exists [], b. split; [exact E|]. intros; simpl; lia.
  - destruct (startswith (c :: s) p) eqn:E; simpl.
    + intros _. apply startswith_iff in E as [b E].
      exists [], b. split; [exact E|]. intros; simpl; lia.
    + intros H. destruct (IH H) as [a [b [-> Hmin]]].
      exists (c :: a), b. split; [reflexivity|].
      intros x y Hxy. destruct x as [|d x].
      * simpl in Hxy. rewrite Hxy, startswith_app in E. discriminate E.
      * injection Hxy as _ Hxy. specialize (Hmin x y Hxy). simpl. lia.
Qed.

(** [replace] at the first occurrence: the text before it is kept, the
    occurrence becomes [new], and the replacement goes on after it. *)
Lemma replace_first (p new a b : str) :
  p <> [] ->
  (forall x y, a ++ p ++ b = x ++ p ++ y -> (length a <= length x)%nat) ->
  replace_from p new 0 (a ++ p ++ b) = a ++ new ++ replace_from p new 0 b
  /\ contains p a = false.
Proof.
  intros Hp Hmin. split.
  - destruct p as [|c p]; [contradiction|]. clear Hp.
    induction a as [|d a IH]; cbn [app] in *.
    + cbn [replace_from].
      pose proof (startswith_app (c :: p) b) as Hs. cbn [app] in Hs. rewrite Hs.
      replace (length (c :: p) - 1)%nat with (length p) by (simpl; lia).
      rewrite replace_from_skip. reflexivity.
    + cbn [replace_from].
      destruct (startswith (d :: a ++ c :: p ++ b) (c :: p)) eqn:E.
      * apply startswith_iff in E as [y E].
        specialize (Hmin [] y E). simpl in Hmin. lia.
      * rewrite IH; [reflexivity|].
        intros x y Hxy. specialize (Hmin (d :: x) y).
        cbn [app] in Hmin. rewrite Hxy in Hmin. specialize (Hmin eq_refl).
        simpl in Hmin. lia.
  - apply contains_false_iff. intros u v ->.
    specialize (Hmin u (v ++ p ++ b)). rewrite <- !app_assoc in Hmin.
    specialize (Hmin eq_refl). rewrite !length_app in Hmin.
    destruct p; [contradiction | simpl in Hmin; lia].
Qed.

Lemma replace_uuid_free (template u : str) :
  uuid_shaped u ->
  contains placeholder (replace template placeholder u) = false.
Proof.
  intros Hu. change (replace template placeholder u)
    with (replace_from placeholder u 0 template).
  assert (H : forall n s, (length s <= n)%nat ->
                          contains placeholder (replace_from placeholder u 0 s) = false).
  { induction n as [|n IH]; intros s Hn.
    - destruct s; [reflexivity | simpl in Hn; lia].
    - destruct (contains placeholder s) eqn:Hc.
      + apply first_occurrence in Hc as [a [b [-> Hmin]]].
        destruct (replace_first placeholder u a b ltac:(discriminate) Hmin) as [-> Ha].
        apply uuid_makes_no_placeholder; [exact Hu | exact Ha|].
        apply IH. rewrite !length_app in Hn.
        change (length placeholder) with 17%nat in Hn. lia.
      + rewrite (replace_from_free _ _ _ Hc). exact Hc. }
  exact (H (length template) template (le_n _)).
Qed.

(** X4: with a UUID-shaped value, the text [replace] returns holds no
    placeholder, however many the template had: the gate of lines 113-118
    cannot stop such a run. *)
Theorem uuid_substitution_removes_all (template u : str) :
  uuid_shaped u ->
  contains placeholder (replace template placeholder u) = false.
Proof. exact (replace_uuid_free template u). Qed.

Lemma uuid_substitution_removes_all_witness :
  contains placeholder
    (replace (placeholder ++ lit " and " ++ placeholder) placeholder sample_uuid)
  = false.
Proof. apply (uuid_substitution_removes_all _ sample_uuid), sample_uuid_shaped. Defined.

End SubstitutionAll.

(** ** Runs of [main] *)
Section Runs.
Import Py Re PyFacts ReFacts Patterns Script.

(** Unfold the stages and the monad on a world given by its fields. *)
Ltac run_script :=
  cbv beta iota zeta
      delta [main resolve_db_id report_db_id read_example substitute clean_up
             write_toml final_verification get_database_id_from_local
             bind ret get sys_exit print eprint write_text exit_status
             fst snd environ wrangler_local wrangler_example wrangler_toml
             toml_writable toml_writes stdout stderr negb andb truthy nonempty].

Ltac run_script_in H :=
  cbv beta iota zeta
      delta [main resolve_db_id report_db_id read_example substitute clean_up
             write_toml final_verification get_database_id_from_local
             bind ret get sys_exit print eprint write_text exit_status
             fst snd environ wrangler_local wrangler_example wrangler_toml
             toml_writable toml_writes stdout stderr negb andb truthy nonempty] in H.

(** Split on an innermost [match] of the goal. *)
Ltac split_match :=
  match goal with
  | |- context [match ?x with _ => _ end] =>
      lazymatch x with
      | context [match _ with _ => _ end] => fail
      | _ => destruct x eqn:?
      end
  end.

(** The final verification cannot fail on the joined lines the loop
    returned: the branches where it does are contradictory. *)
Ltac verification_passes :=
  exfalso;
  first
    [ congruence
    | match goal with
      | Hl : clean_loop _ 0 _ = Found ?l,
        Hn : nonempty_match (search database_id_pattern (join_lines ?l)) = false |- _ =>
          let r := fresh in
          let Hr := fresh in
          destruct (written_well_formed _ _ Hl) as [_ [r Hr]];
          rewrite Hr in Hn; discriminate Hn
      end
    | match goal with
      | Hs : contains placeholder ?sub = false,
        Hl : clean_loop (splitlines ?sub) 0 _ = Found ?l,
        Hc : contains placeholder (join_lines ?l) = true |- _ =>
          rewrite (written_placeholder_free _ _ Hs Hl) in Hc; discriminate Hc
      end ].

(** The files and the variable a run starts from stay as they are while
    only messages are printed. *)
Definition same_files (w w' : world) : Prop :=
  environ w' = environ w
  /\ wrangler_local w' = wrangler_local w
  /\ wrangler_example w' = wrangler_example w
  /\ wrangler_toml w' = wrangler_toml w
  /\ toml_writable w' = toml_writable w
  /\ toml_writes w' = toml_writes w.

Lemma resolve_db_id_same_files (w : world) :
  same_files w (snd (resolve_db_id w))
  /\ stdout (snd (resolve_db_id w)) = stdout w.
Proof.
  destruct w as [env loc ex toml wr wl out err fm]. unfold same_files.
  run_script. repeat (split_match; run_script); repeat split; reflexivity.
Qed.

(** The part of [main] that follows the resolution of the value. *)
Definition after_resolve (db_id : str) (source : source) : M unit :=
  report_db_id db_id source ;;;
  content <- read_example ;;
  substituted_content <- substitute content db_id ;;
  lines <- clean_up substituted_content ;;
  let output := join_lines lines in
  write_toml output ;;;
  final_verification ;;;
  print InfoSuccess ;;; print InfoSource ;;; print InfoTarget.

Lemma main_after_resolve (w : world) :
  main w = match resolve_db_id w with
           | (Return p, w') => after_resolve (fst p) (snd p) w'
           | (Exit code, w') => (Exit code, w')
           end.
Proof. reflexivity. Qed.

(** The warnings of the format check. *)
Definition format_warnings (db_id : str) : list message :=
  if validate_database_id db_id then []
  else [WarnFormat (slice_to 8 db_id); WarnContinuing].

(** When every gate passes, the run writes the joined lines and returns. *)
Lemma after_resolve_success (w : world) (db_id : str) (src : source)
      (content : str) (lines' : list str) :
  wrangler_example w = Content content ->
  contains placeholder content = true ->
  contains placeholder (replace content placeholder db_id) = false ->
  contains empty_assignment (replace content placeholder db_id) = false ->
  clean_loop (splitlines (replace content placeholder db_id)) 0
             (splitlines (replace content placeholder db_id)) = Found lines' ->
  toml_writable w = true ->
  let w' := snd (after_resolve db_id src w) in
  fst (after_resolve db_id src w) = Return tt
  /\ wrangler_toml w' = Content (join_lines lines')
  /\ toml_writes w' = toml_writes w ++ [join_lines lines']
  /\ stderr w' = stderr w ++ format_warnings db_id
  /\ environ w' = environ w /\ wrangler_local w' = wrangler_local w
  /\ wrangler_example w' = wrangler_example w /\ toml_writable w' = true.
Proof.
  intros Hex Hph Hleft Hempty Hloop Hwr.
  pose proof (written_placeholder_free _ _ Hleft Hloop) as Hfree.
  destruct (written_well_formed _ _ Hloop) as [_ [r Hr]].
  destruct w as [env loc ex toml wr wl out err fm]. simpl in Hex, Hwr. subst ex wr.
  unfold after_resolve, format_warnings. run_script.
  destruct (validate_database_id db_id); run_script;
    rewrite Hph; run_script; rewrite Hleft; run_script; rewrite Hempty; run_script;
    rewrite Hloop; run_script; rewrite Hr; unfold nonempty_match; run_script;
    rewrite Hfree; run_script;
    rewrite ?app_nil_r, <- ?app_assoc; cbn [app]; repeat split; reflexivity.
Qed.

(** A run writes at most once, and only the joined lines of a template
    that passed every gate. *)
Lemma after_resolve_written (w : world) (db_id : str) (src : source) :
  toml_writes (snd (after_resolve db_id src w)) = toml_writes w
  \/ exists content lines',
      wrangler_example w = Content content
      /\ contains placeholder content = true
      /\ contains placeholder (replace content placeholder db_id) = false
      /\ contains empty_assignment (replace content placeholder db_id) = false
      /\ clean_loop (splitlines (replace content placeholder db_id)) 0
                    (splitlines (replace content placeholder db_id)) = Found lines'
      /\ toml_writes (snd (after_resolve db_id src w))
         = toml_writes w ++ [join_lines lines'].
Proof.
  destruct w as [env loc ex toml wr wl out err fm].
  unfold after_resolve. run_script.
  repeat (split_match; run_script);
    try (left; reflexivity);
    try solve [right; eexists; eexists; repeat split;
               try eassumption; try reflexivity];
    verification_passes.
Qed.

(** *** The gates before the write *)

(** What the local file provides, as [main] receives it. *)
Definition local_value (w : world) : option str :=
  match fst (get_database_id_from_local wrangler_local w) with
  | Return db_id => db_id
  | Exit _ => None
  end.

(** C6: when the variable is unset or blank and the local file gives no
    value, the process exits with status 1; [write_text] is not called
    and [wrangler.toml] is as it was. *)
Theorem no_value_exits_without_writing (w : world) :
  (forall e, environ w = Some e -> strip e = []) ->
  truthy (local_value w) = false ->
  exit_status (main w) = 1
  /\ toml_writes (snd (main w)) = toml_writes w
  /\ wrangler_toml (snd (main w)) = wrangler_toml w.
Proof.
  destruct w as [env loc ex toml wr wl out err fm]. unfold local_value.
  intros Henv Hloc. run_script_in Henv. run_script_in Hloc.
  destruct env as [[|c e]|].
  - run_script.
    repeat (split_match; run_script_in Hloc; run_script);
      try discriminate Hloc; repeat split; reflexivity.
  - specialize (Henv (c :: e) eq_refl). run_script. rewrite Henv.
    repeat split; reflexivity.
  - run_script.
    repeat (split_match; run_script_in Hloc; run_script);
      try discriminate Hloc; repeat split; reflexivity.
Qed.

Definition world_without_value : world :=
  World (Some (lit "  ")) (Content (lit "name = x")) (Content placeholder)
        (Content (lit "old")) true [] [] [] FailsAtOpen.

Lemma no_value_exits_without_writing_witness :
  exit_status (main world_without_value) = 1
  /\ toml_writes (snd (main world_without_value)) = []
  /\ wrangler_toml (snd (main world_without_value)) = Content (lit "old").
Proof.
  apply (no_value_exits_without_writing world_without_value).
  - intros e [= <-]. vm_compute. reflexivity.
  - vm_compute. reflexivity.
Defined.

(** C7: a template without the placeholder makes the process exit with
    status 1; [write_text] is not called and [wrangler.toml] is as it
    was. *)
Theorem missing_placeholder_exits_before_write (w : world) (content : str) :
  wrangler_example w = Content content ->
  contains placeholder content = false ->
  exit_status (main w) = 1
  /\ toml_writes (snd (main w)) = toml_writes w
  /\ wrangler_toml (snd (main w)) = wrangler_toml w.
Proof.
  destruct w as [env loc ex toml wr wl out err fm]. simpl.
  intros -> Hc. run_script.
  repeat (first [rewrite Hc | split_match]; run_script); repeat split; reflexivity.
Qed.

Definition world_without_placeholder : world :=
  World (Some (lit "12345678-1234-1234-1234-123456789012")) Missing
        (Content (key_equals ++ [QUOTE] ++ lit "$D1_DATABASE_ID" ++ [QUOTE; LF]))
        Missing true [] [] [] FailsAtOpen.

Lemma missing_placeholder_exits_before_write_witness :
  exit_status (main world_without_placeholder) = 1
  /\ toml_writes (snd (main world_without_placeholder)) = []
  /\ wrangler_toml (snd (main world_without_placeholder)) = Missing.
Proof.
  apply (missing_placeholder_exits_before_write world_without_placeholder
           (key_equals ++ [QUOTE] ++ lit "$D1_DATABASE_ID" ++ [QUOTE; LF])).
  - reflexivity.
  - vm_compute. reflexivity.
Defined.

(** *** Where the value comes from *)

(** A blank variable next to a local file that assigns a UUID. *)
Definition world_blank_variable : world :=
  World (Some (lit " "))
        (Content (key_equals ++ [QUOTE] ++ sample_uuid ++ [QUOTE]))
        Missing Missing true [] [] [] FailsAtOpen.

(** C2, as stated, fails: a variable that is set but blank does not make
    the script fall back to the local file; it exits with status 1. *)
Lemma blank_variable_blocks_local_value :
  ~ (forall w : world,
        (forall e, environ w = Some e -> strip e <> [] ->
                   fst (resolve_db_id w) = Return (strip e, EnvironmentVariable))
        /\ ((forall e, environ w = Some e -> strip e = []) ->
            forall v, local_value w = Some v -> v <> [] ->
                      fst (resolve_db_id w) = Return (v, WranglerTomlLocal))).
Proof.
  intros H. destruct (H world_blank_variable) as [_ Hlocal].
  assert (Hexit : fst (resolve_db_id world_blank_variable) = Exit 1)
    by (vm_compute; reflexivity).
  rewrite (Hlocal ltac:(intros e [= <-]; vm_compute; reflexivity) sample_uuid) in Hexit.
  - discriminate Hexit.
  - vm_compute. reflexivity.
  - discriminate.
Qed.

(** C2, amended: a variable that is set and not the empty string is the
    one used, trimmed, whatever the local file holds, and the run exits
    with status 1 if trimming leaves nothing; only when the variable is
    unset or the empty string is the value of the local file used. *)
Theorem environment_value_takes_precedence (w : world) :
  (forall e, environ w = Some e -> strip e <> [] ->
             fst (resolve_db_id w) = Return (strip e, EnvironmentVariable))
  /\ (forall e, environ w = Some e -> e <> [] -> strip e = [] ->
                fst (resolve_db_id w) = Exit 1)
  /\ (truthy (environ w) = false ->
      forall v, local_value w = Some v -> v <> [] ->
                fst (resolve_db_id w) = Return (v, WranglerTomlLocal))
  /\ (truthy (environ w) = false -> truthy (local_value w) = false ->
      fst (resolve_db_id w) = Exit 1).
Proof.
  destruct w as [env loc ex toml wr wl out err fm]. unfold local_value.
  split; [|split; [|split]].
  - intros e He Hs. simpl in He. subst env.
    destruct e as [|c e]; [contradiction Hs; reflexivity|].
    run_script. destruct (strip (c :: e)); [contradiction | reflexivity].
  - intros e He Hne Hs. simpl in He. subst env.
    destruct e as [|c e]; [contradiction|].
    run_script. rewrite Hs. reflexivity.
  - intros Henv v Hv Hne. run_script_in Hv. run_script.
    destruct env as [[|c e]|]; try discriminate Henv;
      (destruct loc as [| |text]; run_script_in Hv; try discriminate Hv;
       destruct (search value_pattern text) as [m|] eqn:Hm;
       run_script_in Hv; try discriminate Hv;
       injection Hv as <-; run_script;
       destruct (strip (group1 m)) as [|n l0] eqn:Hs; [contradiction|];
       run_script;
       assert (Hid : strip (n :: l0) = n :: l0)
         by (rewrite <- Hs; apply strip_idempotent);
       rewrite Hid; reflexivity).
  - intros Henv Hloc. run_script_in Hloc.
    destruct env as [[|c e]|]; try discriminate Henv; run_script;
      repeat (split_match; run_script_in Hloc; run_script);
      try discriminate Hloc; reflexivity.
Qed.

(** A variable with spaces around a value, next to a local file that
    assigns another value. *)
Definition world_both_sources : world :=
  World (Some (lit " from-env "))
        (Content (key_equals ++ [QUOTE] ++ lit "from-file" ++ [QUOTE]))
        Missing Missing true [] [] [] FailsAtOpen.

Definition world_local_only : world :=
  World None
        (Content (key_equals ++ [QUOTE] ++ lit "from-file" ++ [QUOTE]))
        Missing Missing true [] [] [] FailsAtOpen.

Lemma environment_value_takes_precedence_witness :
  fst (resolve_db_id world_both_sources)
  = Return (lit "from-env", EnvironmentVariable)
  /\ fst (resolve_db_id world_blank_variable) = Exit 1
  /\ fst (resolve_db_id world_local_only)
     = Return (lit "from-file", WranglerTomlLocal).
Proof.
  split; [|split].
  - apply (proj1 (environment_value_takes_precedence world_both_sources)
                 (lit " from-env ") eq_refl).
    vm_compute. discriminate.
  - apply (proj1 (proj2 (environment_value_takes_precedence world_blank_variable))
                 (lit " ") eq_refl).
    + discriminate.
    + vm_compute. reflexivity.
  - apply (proj1 (proj2 (proj2 (environment_value_takes_precedence world_local_only)))
                 eq_refl (lit "from-file")).
    + vm_compute. reflexivity.
    + discriminate.
Defined.

(** *** The output as a function of the inputs *)

(** [main] leaves the variable and the two input files alone, and returns
    only on a writable [wrangler.toml]. *)
Lemma main_keeps_inputs (w : world) :
  environ (snd (main w)) = environ w
  /\ wrangler_local (snd (main w)) = wrangler_local w
  /\ wrangler_example (snd (main w)) = wrangler_example w
  /\ (exit_status (main w) = 0 ->
      toml_writable w = true /\ toml_writable (snd (main w)) = true).
Proof.
  destruct w as [env loc ex toml wr wl out err fm]. run_script.
  repeat (split_match; run_script);
    try solve [repeat split; try reflexivity; intros; discriminate];
    try solve [repeat split; reflexivity];
    verification_passes.
Qed.

(** Two runs from the same inputs hand the same text to [write_text]. *)
Lemma main_same_writes (w1 w2 : world) :
  environ w1 = environ w2 ->
  wrangler_local w1 = wrangler_local w2 ->
  wrangler_example w1 = wrangler_example w2 ->
  exists d, toml_writes (snd (main w1)) = toml_writes w1 ++ d
            /\ toml_writes (snd (main w2)) = toml_writes w2 ++ d.
Proof.
  destruct w1 as [env loc ex toml1 wr1 wl1 out1 err1],
           w2 as [env2 loc2 ex2 toml2 wr2 wl2 out2 err2].
  simpl. intros <- <- <-. run_script.
  repeat (split_match; run_script);
    try solve [exists []; rewrite !app_nil_r; split; reflexivity];
    try solve [eexists; split; reflexivity];
    verification_passes.
Qed.

(** Two runs from the same inputs that both succeed leave the same file. *)
Lemma main_same_file (w1 w2 : world) :
  environ w1 = environ w2 ->
  wrangler_local w1 = wrangler_local w2 ->
  wrangler_example w1 = wrangler_example w2 ->
  exit_status (main w1) = 0 -> exit_status (main w2) = 0 ->
  wrangler_toml (snd (main w1)) = wrangler_toml (snd (main w2)).
Proof.
  destruct w1 as [env loc ex toml1 wr1 wl1 out1 err1],
           w2 as [env2 loc2 ex2 toml2 wr2 wl2 out2 err2].
  simpl. intros <- <- <-. run_script.
  repeat (split_match; run_script);
    try solve [intros; discriminate];
    try solve [intros; reflexivity];
    verification_passes.
Qed.

(** Two runs from the same inputs, both able or both unable to write,
    end the same way. *)
Lemma main_same_result (w1 w2 : world) :
  environ w1 = environ w2 ->
  wrangler_local w1 = wrangler_local w2 ->
  wrangler_example w1 = wrangler_example w2 ->
  toml_writable w1 = toml_writable w2 ->
  fst (main w1) = fst (main w2).
Proof.
  destruct w1 as [env loc ex toml1 wr1 wl1 out1 err1],
           w2 as [env2 loc2 ex2 toml2 wr2 wl2 out2 err2].
  simpl. intros <- <- <- <-. run_script.
  repeat (split_match; run_script);
    try reflexivity;
    verification_passes.
Qed.

(** C3: the text handed to [write_text], the exit status and the file a
    successful run leaves depend only on the variable, the local file and
    the template, not on a [wrangler.toml] already there; a second run on
    what the first one left gives the same file again. *)
Theorem output_is_deterministic (w1 w2 : world) :
  environ w1 = environ w2 ->
  wrangler_local w1 = wrangler_local w2 ->
  wrangler_example w1 = wrangler_example w2 ->
  (exists d, toml_writes (snd (main w1)) = toml_writes w1 ++ d
             /\ toml_writes (snd (main w2)) = toml_writes w2 ++ d)
  /\ (exit_status (main w1) = 0 -> exit_status (main w2) = 0 ->
      wrangler_toml (snd (main w1)) = wrangler_toml (snd (main w2)))
  /\ (toml_writable w1 = toml_writable w2 -> fst (main w1) = fst (main w2))
  /\ (exit_status (main w1) = 0 ->
      exit_status (main (snd (main w1))) = 0
      /\ wrangler_toml (snd (main (snd (main w1)))) = wrangler_toml (snd (main w1))).
Proof.
  intros Henv Hloc Hex.
  split; [apply main_same_writes; assumption|].
  split; [apply main_same_file; assumption|].
  split; [apply main_same_result; assumption|].
  intros H0.
  destruct (main_keeps_inputs w1) as [Ke [Kl [Kx Kw]]].
  destruct (Kw H0) as [Hw Hw'].
  assert (Hsame : fst (main (snd (main w1))) = fst (main w1))
    by (apply main_same_result; congruence).
  assert (H0' : exit_status (main (snd (main w1))) = 0)
    by (unfold exit_status in *; rewrite Hsame; exact H0).
  split; [exact H0'|].
  apply main_same_file; assumption.
Qed.

(** *** Runs that reach the write *)

(** Once the value is resolved, [main] goes on from a world that differs
    only by what was printed. *)
Lemma main_resolved (w : world) (db_id : str) (src : source) :
  fst (resolve_db_id w) = Return (db_id, src) ->
  exists w1, main w = after_resolve db_id src w1
             /\ same_files w w1 /\ stdout w1 = stdout w.
Proof.
  intros H. rewrite main_after_resolve.
  destruct (resolve_db_id_same_files w) as [Hsame Hout].
  destruct (resolve_db_id w) as [[[d s0]|code] w1]; simpl in H; [|discriminate H].
  injection H as -> ->. exists w1. auto.
Qed.

(** Without a resolved value nothing is written. *)
Lemma main_unresolved (w : world) (code : N) :
  fst (resolve_db_id w) = Exit code ->
  toml_writes (snd (main w)) = toml_writes w.
Proof.
  intros H. rewrite main_after_resolve.
  destruct (resolve_db_id_same_files w) as [[_ [_ [_ [_ [_ Hw]]]]] _].
  destruct (resolve_db_id w) as [[p|c] w1]; simpl in H; [discriminate H|].
  exact Hw.
Qed.

(** When the gates before the write pass, [write_text] receives the
    joined lines, writable file or not. *)
Lemma after_resolve_attempt (w : world) (db_id : str) (src : source)
      (content : str) (lines' : list str) :
  wrangler_example w = Content content ->
  contains placeholder content = true ->
  contains placeholder (replace content placeholder db_id) = false ->
  contains empty_assignment (replace content placeholder db_id) = false ->
  clean_loop (splitlines (replace content placeholder db_id)) 0
             (splitlines (replace content placeholder db_id)) = Found lines' ->
  toml_writes (snd (after_resolve db_id src w)) = toml_writes w ++ [join_lines lines'].
Proof.
  intros Hex Hph Hleft Hempty Hloop.
  destruct (toml_writable w) eqn:Hwr.
  - exact (proj1 (proj2 (proj2 (after_resolve_success w db_id src content lines'
                                  Hex Hph Hleft Hempty Hloop Hwr)))).
  - destruct w as [env loc ex toml wr wl out err fm]. simpl in Hex, Hwr. subst ex wr.
    unfold after_resolve. run_script.
    destruct (validate_database_id db_id); run_script;
      rewrite Hph; run_script; rewrite Hleft; run_script; rewrite Hempty; run_script;
      rewrite Hloop; run_script; reflexivity.
Qed.

(** The format warning is printed whatever happens next. *)
Lemma after_resolve_warns (w : world) (db_id : str) (src : source) :
  validate_database_id db_id = false ->
  In (WarnFormat (slice_to 8 db_id)) (stderr (snd (after_resolve db_id src w))).
Proof.
  intros Hv. destruct w as [env loc ex toml wr wl out err fm].
  unfold after_resolve. run_script. rewrite Hv. run_script.
  repeat (split_match; run_script);
    try solve [rewrite <- ?app_assoc; apply in_or_app; right; left; reflexivity];
    verification_passes.
Qed.

(** When the placeholder gates pass but the substituted text has an
    empty assignment or no line for the normalizer, the run ends with
    status 1 and [write_text] is not called. *)
Lemma after_resolve_blocked (w : world) (db_id : str) (src : source)
      (content : str) :
  wrangler_example w = Content content ->
  contains placeholder content = true ->
  contains placeholder (replace content placeholder db_id) = false ->
  contains empty_assignment (replace content placeholder db_id) = true
  \/ (forall lines',
        clean_loop (splitlines (replace content placeholder db_id)) 0
                   (splitlines (replace content placeholder db_id)) <> Found lines') ->
  exit_status (after_resolve db_id src w) = 1
  /\ toml_writes (snd (after_resolve db_id src w)) = toml_writes w.
Proof.
  intros Hex Hph Hleft Hblock.
  destruct w as [env loc ex toml wr wl out err fm]. simpl in Hex. subst ex.
  unfold after_resolve. run_script.
  destruct (validate_database_id db_id); run_script;
    rewrite Hph; run_script; rewrite Hleft; run_script;
    (destruct (contains empty_assignment (replace content placeholder db_id));
     run_script; [split; reflexivity|];
     destruct Hblock as [Hblock | Hblock]; [discriminate Hblock|];
     destruct (clean_loop _ 0 _) as [lines'| |] eqn:Hloop; run_script;
     [destruct (Hblock lines' eq_refl) | split; reflexivity | split; reflexivity]).
Qed.

(** A template with one carrier line and trailing blank lines. *)
Definition carrier_template : str :=
  lit "[[d1_databases]]" ++ [CR; LF]
  ++ lit "  " ++ key_equals ++ [QUOTE] ++ placeholder ++ [QUOTE] ++ lit "  # id"
  ++ [CR; LF; LF; LF].

(** What the script writes from [carrier_template] and [db_id]. *)
Definition carrier_output (db_id : str) : str :=
  lit "[[d1_databases]]" ++ [LF]
  ++ lit "  " ++ key_equals ++ [QUOTE] ++ db_id ++ [QUOTE]
  ++ [LF; LF].

Definition world_of (db_id template : str) (toml : file) : world :=
  World (Some db_id) Missing (Content template) toml true [] [] [] FailsAtOpen.

(** C8: a value that fails the format check only draws a warning: the
    warning is printed, the substitution goes on, and when the later gates
    pass on a writable file the process ends with status 0 and the file
    holds the joined lines. *)
Theorem format_failure_only_warns (w : world) (db_id : str) (src : source) :
  fst (resolve_db_id w) = Return (db_id, src) ->
  validate_database_id db_id = false ->
  In (WarnFormat (slice_to 8 db_id)) (stderr (snd (main w)))
  /\ forall content lines',
      wrangler_example w = Content content ->
      contains placeholder content = true ->
      contains placeholder (replace content placeholder db_id) = false ->
      contains empty_assignment (replace content placeholder db_id) = false ->
      clean_loop (splitlines (replace content placeholder db_id)) 0
                 (splitlines (replace content placeholder db_id)) = Found lines' ->
      toml_writable w = true ->
      exit_status (main w) = 0
      /\ wrangler_toml (snd (main w)) = Content (join_lines lines')
      /\ toml_writes (snd (main w)) = toml_writes w ++ [join_lines lines'].
Proof.
  intros Hres Hv.
  destruct (main_resolved w db_id src Hres)
    as [w1 [-> [[_ [_ [Hx [_ [Hwr Hwl]]]]] _]]].
  split; [apply after_resolve_warns; exact Hv|].
  intros content lines' Hex Hph Hleft Hempty Hloop Hw.
  rewrite <- Hx in Hex. rewrite <- Hwr in Hw.
  destruct (after_resolve_success w1 db_id src content lines'
              Hex Hph Hleft Hempty Hloop Hw) as [H0 [Ht [Hws _]]].
  unfold exit_status. rewrite H0, Ht, Hws, Hwl. repeat split; reflexivity.
Qed.

Lemma format_failure_only_warns_witness :
  In (WarnFormat (lit "not-a-uu"))
     (stderr (snd (main (world_of (lit "not-a-uuid") carrier_template Missing))))
  /\ exit_status (main (world_of (lit "not-a-uuid") carrier_template Missing)) = 0
  /\ wrangler_toml (snd (main (world_of (lit "not-a-uuid") carrier_template Missing)))
     = Content (carrier_output (lit "not-a-uuid")).
Proof.
  destruct (format_failure_only_warns
              (world_of (lit "not-a-uuid") carrier_template Missing)
              (lit "not-a-uuid") EnvironmentVariable) as [Hwarn Hrun].
  - vm_compute. reflexivity.
  - vm_compute. reflexivity.
  - split; [exact Hwarn|].
    destruct (Hrun carrier_template
                   [lit "[[d1_databases]]";
                    lit "  " ++ key_equals ++ [QUOTE] ++ lit "not-a-uuid" ++ [QUOTE];
                    []; []]) as [H0 [Ht _]];
      try (vm_compute; reflexivity).
    split; [exact H0 | exact Ht].
Defined.

(** A template with one placeholder but no [database_id] line. *)
Definition keyless_template : str :=
  lit "id = " ++ [QUOTE] ++ placeholder ++ [QUOTE; LF].

(** C1, as stated, fails: with a UUID for value and a template holding the
    placeholder exactly once, the run may still write nothing: the
    template of [keyless_template] has no [database_id] line and the
    process exits with status 1 at the normalizer. *)
Lemma one_placeholder_does_not_ensure_output :
  ~ (forall (w : world) (secret : str) (src : source) (template : str),
        fst (resolve_db_id w) = Return (secret, src) ->
        uuid_shaped secret ->
        wrangler_example w = Content template ->
        occurrences placeholder template = 1%nat ->
        exists output,
          toml_writes (snd (main w)) = toml_writes w ++ [output]
          /\ contains placeholder output = false
          /\ exists l, In l (splitlines output) /\ well_formed_line l).
Proof.
  intros H.
  destruct (H (world_of sample_uuid keyless_template Missing)
              sample_uuid EnvironmentVariable keyless_template)
    as [output [Hw _]].
  - vm_compute. reflexivity.
  - exact sample_uuid_shaped.
  - reflexivity.
  - vm_compute. reflexivity.
  - vm_compute in Hw. discriminate Hw.
Qed.

(** C1, amended: with a UUID-shaped value and a template holding the
    placeholder exactly once, the gates on the placeholder pass.  If the
    substituted text has no empty assignment and the normalizer finds its
    line, the text handed to [write_text] holds no placeholder and has a
    well-formed [database_id] line, and on a writable file the process ends
    with status 0 leaving that text; otherwise the process ends with status
    1 and [write_text] is not called. *)
Theorem uuid_pipeline_output (w : world) (secret : str) (src : source)
        (template : str) :
  fst (resolve_db_id w) = Return (secret, src) ->
  uuid_shaped secret ->
  wrangler_example w = Content template ->
  occurrences placeholder template = 1%nat ->
  (forall lines',
      contains empty_assignment (replace template placeholder secret) = false ->
      clean_loop (splitlines (replace template placeholder secret)) 0
                 (splitlines (replace template placeholder secret)) = Found lines' ->
      toml_writes (snd (main w)) = toml_writes w ++ [join_lines lines']
      /\ contains placeholder (join_lines lines') = false
      /\ (exists l, In l (splitlines (join_lines lines')) /\ well_formed_line l)
      /\ (toml_writable w = true ->
          exit_status (main w) = 0
          /\ wrangler_toml (snd (main w)) = Content (join_lines lines')))
  /\ (contains empty_assignment (replace template placeholder secret) = true
      \/ (forall lines',
            clean_loop (splitlines (replace template placeholder secret)) 0
                       (splitlines (replace template placeholder secret))
            <> Found lines') ->
      exit_status (main w) = 1
      /\ toml_writes (snd (main w)) = toml_writes w).
Proof.
  intros Hres Hu Hex Hone.
  destruct (uuid_substitution_free template secret Hu Hone) as [Hph Hleft].
  destruct (main_resolved w secret src Hres)
    as [w1 [-> [[_ [_ [Hx [_ [Hwr Hwl]]]]] _]]].
  rewrite <- Hx in Hex. split.
  - intros lines' Hempty Hloop. split.
    { rewrite (after_resolve_attempt w1 secret src template lines'
                 Hex Hph Hleft Hempty Hloop), Hwl. reflexivity. }
    split; [exact (written_placeholder_free _ _ Hleft Hloop)|].
    split; [exact (proj2 (proj2 (written_line_feeds _ _ Hloop)))|].
    intros Hw. rewrite <- Hwr in Hw.
    destruct (after_resolve_success w1 secret src template lines'
                Hex Hph Hleft Hempty Hloop Hw) as [H0 [Ht _]].
    unfold exit_status. rewrite H0, Ht. split; reflexivity.
  - intros Hblock.
    destruct (after_resolve_blocked w1 secret src template Hex Hph Hleft Hblock)
      as [H1 Hsame].
    rewrite H1, Hsame, Hwl. split; reflexivity.
Qed.

Lemma uuid_pipeline_output_witness :
  toml_writes (snd (main (world_of sample_uuid carrier_template (Content (lit "old")))))
  = [carrier_output sample_uuid]
  /\ contains placeholder (carrier_output sample_uuid) = false
  /\ exit_status (main (world_of sample_uuid carrier_template (Content (lit "old")))) = 0
  /\ wrangler_toml (snd (main (world_of sample_uuid carrier_template
                                        (Content (lit "old")))))
     = Content (carrier_output sample_uuid).
Proof.
  destruct (uuid_pipeline_output
              (world_of sample_uuid carrier_template (Content (lit "old")))
              sample_uuid EnvironmentVariable carrier_template)
    as [Hpass _].
  - vm_compute. reflexivity.
  - exact sample_uuid_shaped.
  - reflexivity.
  - vm_compute. reflexivity.
  - destruct (Hpass [lit "[[d1_databases]]";
                     lit "  " ++ key_equals ++ [QUOTE] ++ sample_uuid ++ [QUOTE];
                     []; []])
      as [Hw [Hfree [_ Hrun]]].
    + vm_compute. reflexivity.
    + vm_compute. reflexivity.
    + destruct (Hrun eq_refl) as [H0 Ht].
      split; [exact Hw|]. split; [exact Hfree|]. split; [exact H0 | exact Ht].
Defined.

(** C10, as stated, fails: from [carrier_template], which ends in blank
    lines, the text written ends with two line feeds. *)
Lemma trailing_blank_lines_are_kept :
  ~ (forall (w : world) (output : str),
        toml_writes (snd (main w)) = toml_writes w ++ [output] ->
        (forall c, In c output -> islinebreak c = true -> c = LF)
        /\ exists o, output = o ++ [LF] /\ endswith o [LF] = false).
Proof.
  intros H.
  destruct (H (world_of sample_uuid carrier_template Missing)
              (carrier_output sample_uuid)) as [_ [o [E Hend]]].
  - vm_compute. reflexivity.
  - change (carrier_output sample_uuid)
      with ((lit "[[d1_databases]]" ++ [LF]
             ++ lit "  " ++ key_equals ++ [QUOTE] ++ sample_uuid ++ [QUOTE; LF])
            ++ [LF]) in E.
    apply app_inj_tail in E as [<- _]. vm_compute in Hend. discriminate Hend.
Qed.

(** C10, amended: whatever the template, the text handed to [write_text]
    has line feeds as its only line boundaries, so no carriage return, and
    ends with a line feed; one is appended only when the joined lines do not
    end with one, so blank lines at the end of the template are not
    collapsed. *)
Theorem written_text_line_endings (w : world) (output : str) :
  toml_writes (snd (main w)) = toml_writes w ++ [output] ->
  (forall c, In c output -> islinebreak c = true -> c = LF)
  /\ ~ In CR output
  /\ exists o, output = o ++ [LF].
Proof.
  intros Hw.
  assert (Hgrow : forall l : list (list N), l <> l ++ [output]).
  { intros l E. apply (f_equal (@length (list N))) in E.
    rewrite length_app in E. simpl in E. lia. }
  assert (Hout : exists substituted lines',
             clean_loop (splitlines substituted) 0 (splitlines substituted)
             = Found lines' /\ output = join_lines lines').
  { destruct (fst (resolve_db_id w)) as [[db_id src]|code] eqn:Hres.
    - destruct (main_resolved w db_id src Hres)
        as [w1 [Hmain [[_ [_ [_ [_ [_ Hwl]]]]] _]]].
      rewrite Hmain in Hw.
      destruct (after_resolve_written w1 db_id src)
        as [Hsame | [content [lines' [_ [_ [_ [_ [Hloop Hwrite]]]]]]]].
      + rewrite Hsame, Hwl in Hw. destruct (Hgrow _ Hw).
      + rewrite Hwrite, Hwl in Hw. apply app_inj_tail in Hw as [_ [= <-]].
        eauto.
    - rewrite (main_unresolved w code Hres) in Hw. destruct (Hgrow _ Hw). }
  destruct Hout as [substituted [lines' [Hloop ->]]].
  destruct (written_line_feeds _ _ Hloop) as [Hlf [Hend _]].
  split; [exact Hlf|]. split; [|exact Hend].
  intros Hcr. specialize (Hlf CR Hcr eq_refl). discriminate Hlf.
Qed.

Lemma written_text_line_endings_witness :
  ~ In CR (carrier_output sample_uuid)
  /\ exists o, carrier_output sample_uuid = o ++ [LF].
Proof.
  destruct (written_text_line_endings
              (world_of sample_uuid carrier_template Missing)
              (carrier_output sample_uuid)) as [_ H].
  - vm_compute. reflexivity.
  - exact H.
Defined.

(** C3 on two runs that differ only by the [wrangler.toml] already there. *)
Lemma output_is_deterministic_witness :
  wrangler_toml (snd (main (world_of sample_uuid carrier_template Missing)))
  = wrangler_toml (snd (main (world_of sample_uuid carrier_template
                                       (Content (lit "old"))))).
Proof.
  apply (proj1 (proj2 (output_is_deterministic
                         (world_of sample_uuid carrier_template Missing)
                         (world_of sample_uuid carrier_template (Content (lit "old")))
                         eq_refl eq_refl eq_refl)));
    vm_compute; reflexivity.
Defined.

(** *** Further properties of runs *)

(** X5: the checks made after the write cannot fail on what the script
    itself wrote: every text handed to [write_text] matches the final
    pattern and holds no placeholder. *)
Theorem written_text_passes_verification (w : world) (output : str) :
  toml_writes (snd (main w)) = toml_writes w ++ [output] ->
  nonempty_match (search database_id_pattern output) = true
  /\ contains placeholder output = false.
Proof.
  intros Hw.
  assert (Hgrow : forall l : list (list N), l <> l ++ [output]).
  { intros l E. apply (f_equal (@length (list N))) in E.
    rewrite length_app in E. simpl in E. lia. }
  destruct (fst (resolve_db_id w)) as [[db_id src]|code] eqn:Hres.
  - destruct (main_resolved w db_id src Hres)
      as [w1 [Hmain [[_ [_ [_ [_ [_ Hwl]]]]] _]]].
    rewrite Hmain in Hw.
    destruct (after_resolve_written w1 db_id src)
      as [Hsame | [content [lines' [_ [_ [Hleft [_ [Hloop Hwrite]]]]]]]].
    + rewrite Hsame, Hwl in Hw. destruct (Hgrow _ Hw).
    + rewrite Hwrite, Hwl in Hw. apply app_inj_tail in Hw as [_ [= <-]].
      destruct (written_well_formed _ _ Hloop) as [_ [r ->]].
      split; [reflexivity | exact (written_placeholder_free _ _ Hleft Hloop)].
  - rewrite (main_unresolved w code Hres) in Hw. destruct (Hgrow _ Hw).
Qed.

Lemma written_text_passes_verification_witness :
  nonempty_match (search database_id_pattern (carrier_output sample_uuid)) = true
  /\ contains placeholder (carrier_output sample_uuid) = false.
Proof.
  apply (written_text_passes_verification
           (world_of sample_uuid carrier_template Missing)).
  vm_compute. reflexivity.
Defined.

Lemma main_file_on_exit (w : world) :
  (exit_status (main w) = 0 ->
   exists output,
     wrangler_toml (snd (main w)) = Content output
     /\ toml_writes (snd (main w)) = toml_writes w ++ [output])
  /\ (exit_status (main w) <> 0 ->
      (toml_writes (snd (main w)) = toml_writes w
       /\ wrangler_toml (snd (main w)) = wrangler_toml w)
      \/ (exists output,
            toml_writes (snd (main w)) = toml_writes w ++ [output]
            /\ toml_writable w = false
            /\ wrangler_toml (snd (main w))
               = after_failed_write (wrangler_toml w) (toml_write_failure w))).
Proof.
  destruct w as [env loc ex toml wr wl out err fm]. run_script.
  repeat (split_match; run_script);
    try solve [split; [intros H; discriminate H
                      | intros _; left; split; reflexivity]];
    try solve [split; [intros H; discriminate H
                      | intros _; right; eexists; repeat split; reflexivity]];
    try solve [split; [intros _; eexists; split; reflexivity
                      | intros H; contradiction H; reflexivity]];
    verification_passes.
Qed.





(** The messages that report a fatal condition. *)
Definition is_error (m : message) : bool :=
  match m with
  | ErrNotFound | ErrEmpty | ErrExampleMissing | ErrExampleUnreadable
  | ErrPlaceholderMissing | ErrPlaceholderLeft | ErrEmptyAfterSubstitution
  | ErrValueEmpty | ErrLineNotFound | ErrWriteFailed | ErrDisappeared
  | ErrFormatVerification | ErrPlaceholderInFinal | ErrVerifyFailed => true
  | _ => false
  end.

(** What a run printed on the error stream. *)
Definition new_errors (w : world) : list message :=
  drop (length (stderr w)) (stderr (snd (main w))).

(** X7: the exit status is 0 or 1, and a run fails exactly when it reports
    an error: with status 0 nothing fatal was printed on the error stream,
    with status 1 at least one fatal message was. *)
Theorem failure_is_reported (w : world) :
  (exit_status (main w) = 0 /\ existsb is_error (new_errors w) = false)
  \/ (exit_status (main w) = 1 /\ existsb is_error (new_errors w) = true).
Proof.
  unfold new_errors. destruct w as [env loc ex toml wr wl out err fm]. run_script.
  repeat (split_match; run_script);
    try solve [rewrite <- ?app_assoc, ?drop_app_length, ?drop_all;
               first [left; split; reflexivity | right; split; reflexivity]];
    verification_passes.
Qed.

Lemma resolve_db_id_trimmed (w : world) (db_id : str) (src : source) :
  fst (resolve_db_id w) = Return (db_id, src) ->
  db_id <> [] /\ strip db_id = db_id.
Proof.
  assert (H : match fst (resolve_db_id w) with
              | Return p => fst p <> [] /\ strip (fst p) = fst p
              | Exit _ => True
              end).
  { destruct w as [env loc ex toml wr wl out err fm]. run_script.
    repeat (split_match; run_script); try exact I;
      match goal with
      | E : strip ?x = ?c :: ?l |- _ =>
          split; [discriminate | rewrite <- E; apply strip_idempotent]
      end. }
  intros Hres. rewrite Hres in H. exact H.
Qed.






(** X8: the value [main] goes on with is never empty and has no
    whitespace around it, whichever source it came from. *)
Theorem resolved_value_is_trimmed (w : world) (db_id : str) (src : source) :
  fst (resolve_db_id w) = Return (db_id, src) ->
  db_id <> [] /\ strip db_id = db_id.
Proof. exact (resolve_db_id_trimmed w db_id src). Qed.

Lemma resolved_value_is_trimmed_witness :
  lit "from-env" <> [] /\ strip (lit "from-env") = lit "from-env".
Proof.
  apply (resolved_value_is_trimmed world_both_sources (lit "from-env")
           EnvironmentVariable).
  vm_compute. reflexivity.
Defined.

Lemma resolve_db_id_no_format_warning (w : world) :
  (forall h, ~ In (WarnFormat h) (stderr w)) ->
  forall h, ~ In (WarnFormat h) (stderr (snd (resolve_db_id w))).
Proof.
  destruct w as [env loc ex toml wr wl out err fm]. simpl. intros Hno h. run_script.
  repeat (split_match; run_script);
    intros Hin;
    repeat match goal with
           | H : In _ (_ ++ _) |- _ => apply in_app_or in H as [H|H]
           end;
    try (eapply Hno; eassumption);
    simpl in Hin; intuition discriminate.
Qed.

Lemma after_resolve_no_format_warning (w : world) (db_id : str) (src : source) :
  validate_database_id db_id = true ->
  (forall h, ~ In (WarnFormat h) (stderr w)) ->
  forall h, ~ In (WarnFormat h) (stderr (snd (after_resolve db_id src w))).
Proof.
  intros Hv. destruct w as [env loc ex toml wr wl out err fm]. simpl. intros Hno h.
  unfold after_resolve. run_script. rewrite Hv. run_script.
  repeat (split_match; run_script);
    try solve [intros Hin;
               repeat match goal with
                      | H : In _ (_ ++ _) |- _ => apply in_app_or in H as [H|H]
                      end;
               try (eapply Hno; eassumption);
               simpl in Hin; intuition discriminate];
    verification_passes.
Qed.

(** X9: in a run, the format warning is printed exactly when the resolved
    value is not UUID-shaped: the value is trimmed before the check, so the
    line feed [validate_database_id] lets through never reaches it. *)
Theorem main_warns_iff_not_uuid (w : world) (db_id : str) (src : source) :
  fst (resolve_db_id w) = Return (db_id, src) ->
  (forall h, ~ In (WarnFormat h) (stderr w)) ->
  (validate_database_id db_id = true <-> uuid_shaped db_id)
  /\ (In (WarnFormat (slice_to 8 db_id)) (stderr (snd (main w)))
      <-> ~ uuid_shaped db_id).
Proof.
  intros Hres Hno.
  destruct (resolve_db_id_trimmed w db_id src Hres) as [_ Htrim].
  pose proof (validate_database_id_trimmed db_id Htrim) as Hiff.
  split; [exact Hiff|].
  pose proof (resolve_db_id_no_format_warning w Hno) as Hno1.
  rewrite main_after_resolve.
  destruct (resolve_db_id w) as [[[d s0]|code] w1]; simpl in Hres; [|discriminate Hres].
  injection Hres as -> ->. simpl in Hno1 |- *.
  destruct (validate_database_id db_id) eqn:Hv.
  - split.
    + intros Hin. destruct (after_resolve_no_format_warning w1 db_id src Hv Hno1 _ Hin).
    + intros Hnu. destruct (Hnu (proj1 Hiff eq_refl)).
  - split.
    + intros _ Hu. apply Hiff in Hu. discriminate Hu.
    + intros _. apply after_resolve_warns. exact Hv.
Qed.

Lemma main_warns_iff_not_uuid_witness :
  In (WarnFormat (lit "not-a-uu"))
     (stderr (snd (main (world_of (lit "not-a-uuid") carrier_template Missing)))).
Proof.
  apply (proj2 (main_warns_iff_not_uuid
                  (world_of (lit "not-a-uuid") carrier_template Missing)
                  (lit "not-a-uuid") EnvironmentVariable eq_refl
                  (fun h H => H))).
  intros Hu. apply uuid_shaped_length in Hu. discriminate Hu.
Defined.

(** X13: with a UUID-shaped value every placeholder of the template is
    replaced, however many there are: when the template holds the
    placeholder, the substituted text has no empty assignment and the
    normalizer finds its line, a run on a writable file ends with status 0
    and leaves a text without any placeholder. *)
Theorem uuid_replaces_every_placeholder (w : world) (secret : str) (src : source)
        (template : str) (lines' : list str) :
  fst (resolve_db_id w) = Return (secret, src) ->
  uuid_shaped secret ->
  wrangler_example w = Content template ->
  contains placeholder template = true ->
  contains empty_assignment (replace template placeholder secret) = false ->
  clean_loop (splitlines (replace template placeholder secret)) 0
             (splitlines (replace template placeholder secret)) = Found lines' ->
  toml_writable w = true ->
  exit_status (main w) = 0
  /\ wrangler_toml (snd (main w)) = Content (join_lines lines')
  /\ contains placeholder (join_lines lines') = false.
Proof.
  intros Hres Hu Hex Hph Hempty Hloop Hw.
  pose proof (replace_uuid_free template secret Hu) as Hleft.
  destruct (main_resolved w secret src Hres)
    as [w1 [-> [[_ [_ [Hx [_ [Hwr _]]]]] _]]].
  rewrite <- Hx in Hex. rewrite <- Hwr in Hw.
  destruct (after_resolve_success w1 secret src template lines'
              Hex Hph Hleft Hempty Hloop Hw) as [H0 [Ht _]].
  unfold exit_status. rewrite H0, Ht.
  repeat split. exact (written_placeholder_free _ _ Hleft Hloop).
Qed.

(** A template that uses the placeholder twice. *)
Definition two_placeholder_template : str :=
  lit "name = " ++ [QUOTE] ++ lit "db-" ++ placeholder ++ [QUOTE; LF]
  ++ key_equals ++ [QUOTE] ++ placeholder ++ [QUOTE; LF].

Lemma uuid_replaces_every_placeholder_witness :
  exit_status (main (world_of sample_uuid two_placeholder_template Missing)) = 0
  /\ wrangler_toml (snd (main (world_of sample_uuid two_placeholder_template Missing)))
     = Content (lit "name = " ++ [QUOTE] ++ lit "db-" ++ sample_uuid ++ [QUOTE; LF]
                ++ key_equals ++ [QUOTE] ++ sample_uuid ++ [QUOTE; LF]).
Proof.
  destruct (uuid_replaces_every_placeholder
              (world_of sample_uuid two_placeholder_template Missing)
              sample_uuid EnvironmentVariable two_placeholder_template
              [lit "name = " ++ [QUOTE] ++ lit "db-" ++ sample_uuid ++ [QUOTE];
               key_equals ++ [QUOTE] ++ sample_uuid ++ [QUOTE]])
    as [H0 [Ht _]];
    try (vm_compute; reflexivity).
  - exact sample_uuid_shaped.
  - split; [exact H0 | exact Ht].
Defined.

(** X14: when a run succeeds.  [main] ends with status 0 exactly when a
    value is resolved, the template can be read and holds the placeholder,
    the substituted text holds neither the placeholder nor an empty
    assignment, the normalizer finds its line and the file can be
    written. *)
Theorem success_iff_all_gates_pass (w : world) :
  exit_status (main w) = 0 <->
  exists db_id src content lines',
    fst (resolve_db_id w) = Return (db_id, src)
    /\ wrangler_example w = Content content
    /\ contains placeholder content = true
    /\ contains placeholder (replace content placeholder db_id) = false
    /\ contains empty_assignment (replace content placeholder db_id) = false
    /\ clean_loop (splitlines (replace content placeholder db_id)) 0
                  (splitlines (replace content placeholder db_id)) = Found lines'
    /\ toml_writable w = true.
Proof.
  split.
  - intros H0.
    destruct (proj1 (main_file_on_exit w) H0) as [output [_ Hw]].
    destruct (proj2 (proj2 (proj2 (main_keeps_inputs w))) H0) as [Hwr _].
    assert (Hgrow : forall l : list (list N), l <> l ++ [output]).
    { intros l E. apply (f_equal (@length (list N))) in E.
      rewrite length_app in E. simpl in E. lia. }
    destruct (fst (resolve_db_id w)) as [[db_id src]|code] eqn:Hres.
    + destruct (main_resolved w db_id src Hres)
        as [w1 [Hmain [[_ [_ [Hx [_ [_ Hwl]]]]] _]]].
      rewrite Hmain in Hw.
      destruct (after_resolve_written w1 db_id src)
        as [Hsame | [content [lines' [Hex [Hph [Hleft [Hempty [Hloop _]]]]]]]].
      * rewrite Hsame, Hwl in Hw. destruct (Hgrow _ Hw).
      * exists db_id, src, content, lines'. rewrite Hx in Hex.
        repeat split; assumption.
    + rewrite (main_unresolved w code Hres) in Hw. destruct (Hgrow _ Hw).
  - intros [db_id [src [content [lines' [Hres [Hex [Hph [Hleft [Hempty [Hloop Hw]]]]]]]]]].
    destruct (main_resolved w db_id src Hres)
      as [w1 [-> [[_ [_ [Hx [_ [Hwr _]]]]] _]]].
    rewrite <- Hx in Hex. rewrite <- Hwr in Hw.
    destruct (after_resolve_success w1 db_id src content lines'
                Hex Hph Hleft Hempty Hloop Hw) as [H0 _].
    unfold exit_status. rewrite H0. reflexivity.
Qed.

(** The messages of the checks that follow the write (lines 166-198). *)
Definition is_after_write (m : message) : bool :=
  match m with
  | ErrDisappeared | ErrFormatVerification | DumpLine _ _
  | ErrPlaceholderInFinal | ErrVerifyFailed => true
  | _ => false
  end.

(** X15: the checks that follow the write never fire.  When the file
    system gives back what was written, no run prints that the file
    disappeared, that the format verification failed, that a placeholder
    is left in the final file or that the verification could not be
    done. *)
Theorem checks_after_write_never_fire (w : world) :
  existsb is_after_write (new_errors w) = false.
Proof.
  unfold new_errors. destruct w as [env loc ex toml wr wl out err fm]. run_script.
  repeat (split_match; run_script);
    try solve [rewrite <- ?app_assoc, ?drop_app_length, ?drop_all; reflexivity];
    verification_passes.
Qed.

(** What a run printed on the standard output. *)
Definition new_output (w : world) : list message :=
  drop (length (stdout w)) (stdout (snd (main w))).

Definition is_success (m : message) : bool :=
  match m with
  | InfoSuccess => true
  | _ => false
  end.

(** X16: the success message is printed by the runs that end with status
    0 and by no other. *)
Theorem success_message_iff_status_zero (w : world) :
  existsb is_success (new_output w) = true <-> exit_status (main w) = 0.
Proof.
  unfold new_output. destruct w as [env loc ex toml wr wl out err fm]. run_script.
  repeat (split_match; run_script);
    try solve [rewrite <- ?app_assoc, ?drop_app_length, ?drop_all;
               split; intros H; first [reflexivity | discriminate H]];
    verification_passes.
Qed.




End Runs.

(** ** Further properties of the line normalizer *)
Section NormalizerEdges.
Import Py Re PyFacts ReFacts Patterns Script.

Lemma clean_loop_NotFound (lines : list str) (i : nat) (todo : list str) :
  clean_loop lines i todo = NotFound <-> Forall (fun l => carrier l = false) todo.
Proof.
  revert i; induction todo as [|line todo IH]; intros i.
  - split; [constructor | reflexivity].
  - destruct (carrier line) eqn:Hc.
    + split.
      * unfold carrier in Hc. apply andb_true_iff in Hc as [H1 H2].
        destruct (search value_pattern line) as [m|] eqn:Hm; [|discriminate].
        rewrite (clean_loop_stop lines i line todo m H1 Hm).
        destruct (nonempty _); discriminate.
      * intros H. inversion H; congruence.
    + rewrite clean_loop_skip by exact Hc. rewrite IH. split.
      * intros H. constructor; assumption.
      * intros H. inversion H; assumption.
Qed.

Lemma clean_loop_EmptyValue (lines : list str) (i : nat) (todo : list str) :
  clean_loop lines i todo = EmptyValue <->
  exists skipped line rest m,
    todo = skipped ++ line :: rest
    /\ Forall (fun l => carrier l = false) skipped
    /\ startswith (strip line) key_equals = true
    /\ search value_pattern line = Some m
    /\ strip (group1 m) = [].
Proof.
  split.
  - revert i; induction todo as [|line todo IH]; intros i; [discriminate|].
    destruct (carrier line) eqn:Hc.
    + unfold carrier in Hc. apply andb_true_iff in Hc as [H1 H2].
      destruct (search value_pattern line) as [m|] eqn:Hm; [|discriminate].
      rewrite (clean_loop_stop lines i line todo m H1 Hm).
      destruct (strip (group1 m)) as [|c v] eqn:Hv; [|discriminate].
      intros _. exists [], line, todo, m. repeat split; try assumption. constructor.
    + rewrite clean_loop_skip by exact Hc. intros H.
      destruct (IH _ H) as [skipped [l [rest [m [-> [Hs [H1 [H2 H3]]]]]]]].
      exists (line :: skipped), l, rest, m.
      repeat split; try assumption. constructor; assumption.
  - intros [skipped [line [rest [m [-> [Hs [H1 [H2 H3]]]]]]]].
    rewrite (clean_loop_first lines skipped i line rest m Hs H1 H2), H3. reflexivity.
Qed.

(** X1: the two failures of the normalizer.  It reports that the line was
    not found exactly when no line both starts, once trimmed, with the key
    and matches the pattern; it reports an empty value exactly when the
    first such line captures a blank value, whatever the lines after it
    hold.  Both exit with status 1. *)
Theorem normalizer_failures (w : world) (substituted : str) :
  (Forall (fun l => carrier l = false) (splitlines substituted) <->
   clean_up substituted w = (Exit 1, snd (eprint ErrLineNotFound w)))
  /\ ((exists skipped line rest m,
         splitlines substituted = skipped ++ line :: rest
         /\ Forall (fun l => carrier l = false) skipped
         /\ startswith (strip line) key_equals = true
         /\ search value_pattern line = Some m
         /\ strip (group1 m) = []) <->
      clean_up substituted w = (Exit 1, snd (eprint ErrValueEmpty w))).
Proof.
  unfold clean_up. split.
  - rewrite <- (clean_loop_NotFound (splitlines substituted) 0).
    destruct (clean_loop _ 0 _); split; try discriminate; try reflexivity.
    intros H. apply (f_equal snd), (f_equal stderr) in H. simpl in H.
    apply app_inv_head in H. discriminate H.
  - rewrite <- (clean_loop_EmptyValue (splitlines substituted) 0).
    destruct (clean_loop _ 0 _); split; try discriminate; try reflexivity.
    intros H. apply (f_equal snd), (f_equal stderr) in H. simpl in H.
    apply app_inv_head in H. discriminate H.
Qed.

Lemma normalizer_failures_witness :
  clean_up (lit "name = x") (World None Missing Missing Missing true [] [] [] FailsAtOpen)
  = (Exit 1, World None Missing Missing Missing true [] [] [ErrLineNotFound] FailsAtOpen)
  /\ clean_up blank_then_value (World None Missing Missing Missing true [] [] [] FailsAtOpen)
     = (Exit 1, World None Missing Missing Missing true [] [] [ErrValueEmpty] FailsAtOpen).
Proof.
  split.
  - apply (proj1 (normalizer_failures
                    (World None Missing Missing Missing true [] [] [] FailsAtOpen)
                    (lit "name = x"))).
    vm_compute. repeat constructor.
  - apply (proj2 (normalizer_failures
                    (World None Missing Missing Missing true [] [] [] FailsAtOpen)
                    blank_then_value)).
    exists [], (key_equals ++ [QUOTE; 32; QUOTE]),
           [key_equals ++ [QUOTE] ++ lit "abc" ++ [QUOTE] ++ lit " # x"],
           [[32; QUOTE]; [QUOTE]].
    repeat split; try (vm_compute; reflexivity). constructor.
Defined.

(** Trailing whitespace is never taken from a text that ends, once
    trimmed, in something. *)
Lemma rstrip_app (a b : str) : rstrip b <> [] -> rstrip (a ++ b) = a ++ rstrip b.
Proof.
  unfold rstrip. intros Hb. rewrite rev_app_distr.
  rewrite <- (takewhile_dropwhile isspace (rev b)) at 1.
  destruct (dropwhile isspace (rev b)) as [|c r] eqn:E; [contradiction Hb; reflexivity|].
  rewrite <- app_assoc.
  destruct (takewhile_app isspace (takewhile isspace (rev b)) ((c :: r) ++ rev a)
              (takewhile_all _ _) (dropwhile_head _ _ _ _ E)) as [_ ->].
  rewrite rev_app_distr, rev_involutive. reflexivity.
Qed.

Lemma rstrip_keeps (c : char) (b : str) : isspace c = false -> rstrip (c :: b) <> [].
Proof.
  intros Hc E. destruct (rstrip_prefix (c :: b)) as [t [Ht Hall]].
  rewrite E in Ht. simpl in Ht. subst t. inversion Hall; congruence.
Qed.

(** A line of the shape the normalizer is written for: indentation, the
    key, a quoted value, and anything after the closing quote. *)
Definition shaped_line (indent v tail : str) : str :=
  indent ++ key_equals ++ [QUOTE] ++ v ++ [QUOTE] ++ tail.

Lemma shaped_line_starts_with_key (indent v tail : str) :
  Forall (fun c => isspace c = true) indent ->
  startswith (strip (shaped_line indent v tail)) key_equals = true.
Proof.
  intros Hi. unfold strip, lstrip, shaped_line.
  destruct (takewhile_app isspace indent
              (key_equals ++ [QUOTE] ++ v ++ [QUOTE] ++ tail) Hi eq_refl) as [_ ->].
  change (key_equals ++ [QUOTE] ++ v ++ [QUOTE] ++ tail)
    with (key_equals ++ QUOTE :: (v ++ [QUOTE] ++ tail)).
  rewrite rstrip_app by (apply rstrip_keeps; reflexivity).
  apply startswith_app.
Qed.

Lemma shaped_line_value (indent v tail : str) :
  Forall (fun c => isspace c = true) indent ->
  v <> [] -> ~ In QUOTE v ->
  exists m, search value_pattern (shaped_line indent v tail) = Some m
            /\ group1 m = v.
Proof.
  intros Hi Hv Hq. apply search_value_first. exists indent. split.
  - exists (key_equals ++ [QUOTE] ++ v ++ [QUOTE] ++ tail). split; [reflexivity|].
    exists [32], [32], tail. split; [reflexivity|].
    repeat split; try assumption; repeat constructor.
  - intros pre' v' [rest' [E [ws1 [ws2 [post [-> _]]]]]].
    destruct (le_lt_dec (length indent) (length pre')) as [Hle|Hlt]; [exact Hle|].
    exfalso. unfold shaped_line in E.
    assert (H1 : (indent ++ key_equals ++ [QUOTE] ++ v ++ [QUOTE] ++ tail)
                   !! length pre' = Some 100).
    { rewrite E. rewrite lookup_app_r by lia. rewrite Nat.sub_diag. reflexivity. }
    rewrite lookup_app_l in H1 by exact Hlt.
    apply list_elem_of_lookup_2, list_elem_of_In in H1.
    rewrite List.Forall_forall in Hi. apply Hi in H1. discriminate H1.
Qed.

Lemma clean_loop_shaped_line
      (skipped rest : list str) (indent v tail : str) :
  Forall (fun l => carrier l = false) skipped ->
  Forall (fun c => isspace c = true) indent ->
  ~ In QUOTE v ->
  strip v <> [] ->
  clean_loop (skipped ++ shaped_line indent v tail :: rest) 0
             (skipped ++ shaped_line indent v tail :: rest)
  = Found (skipped ++ shaped_line indent (strip v) [] :: rest).
Proof.
  intros Hs Hi Hq Hv.
  assert (Hne : v <> []) by (intros ->; apply Hv; reflexivity).
  destruct (shaped_line_value indent v tail Hi Hne Hq) as [m [Hm Hg]].
  rewrite (clean_loop_first _ skipped 0 _ rest m Hs
             (shaped_line_starts_with_key indent v tail Hi) Hm).
  rewrite Hg. destruct (strip v) as [|c sv] eqn:Esv; [contradiction Hv; reflexivity|].
  cbn [nonempty]. rewrite clean_line_indent. f_equal.
  rewrite insert_app_r_alt by (simpl; lia).
  replace (0 + length skipped - length skipped)%nat with 0%nat by lia.
  cbn [list_insert]. do 2 f_equal.
  unfold shaped_line.
  destruct (takewhile_app isspace indent
              (key_equals ++ [QUOTE] ++ v ++ [QUOTE] ++ tail) Hi eq_refl) as [-> _].
  rewrite app_nil_r. reflexivity.
Qed.

(** X2: on a line of that shape, the first the loop stops at, the
    normalizer keeps the indentation, trims the value and drops whatever
    follows the closing quote; the other lines are kept. *)
Theorem normalizer_drops_trailing_content
        (skipped rest : list str) (indent v tail : str) :
  Forall (fun l => carrier l = false) skipped ->
  Forall (fun c => isspace c = true) indent ->
  ~ In QUOTE v ->
  strip v <> [] ->
  clean_loop (skipped ++ shaped_line indent v tail :: rest) 0
             (skipped ++ shaped_line indent v tail :: rest)
  = Found (skipped ++ shaped_line indent (strip v) [] :: rest).
Proof. exact (clean_loop_shaped_line skipped rest indent v tail). Qed.

Lemma normalizer_drops_trailing_content_witness :
  clean_loop [lit "[[d1_databases]]";
              shaped_line (lit "  ") (lit " abc ") (lit "  # the id")] 0
             [lit "[[d1_databases]]";
              shaped_line (lit "  ") (lit " abc ") (lit "  # the id")]
  = Found [lit "[[d1_databases]]"; shaped_line (lit "  ") (lit "abc") []].
Proof.
  apply (normalizer_drops_trailing_content
           [lit "[[d1_databases]]"] [] (lit "  ") (lit " abc ") (lit "  # the id")).
  - repeat constructor.
  - repeat constructor.
  - vm_compute. intros H. repeat (destruct H as [H|H]; [discriminate H|]). exact H.
  - vm_compute. discriminate.
Defined.

Lemma captured_value_no_quote (line : str) (m : list str) :
  search value_pattern line = Some m -> ~ In QUOTE (strip (group1 m)).
Proof.
  intros Hm Hq. apply strip_incl in Hq.
  apply search_value_Some in Hm as [pre [[rest [_ Ha]] _]].
  destruct Ha as [ws1 [ws2 [post [_ [_ [_ [_ Hnq]]]]]]]. contradiction.
Qed.

(** X3: the normalizer is idempotent: the lines it returns are returned
    unchanged when it runs on them again. *)
Theorem normalizer_is_idempotent (lines lines' : list str) :
  clean_loop lines 0 lines = Found lines' ->
  clean_loop lines' 0 lines' = Found lines'.
Proof.
  intros H. apply clean_loop_Found in H
    as [skipped [line [rest [m [-> [Hs [_ [Hm [Hv ->]]]]]]]]].
  rewrite insert_app_r_alt by (simpl; lia).
  replace (0 + length skipped - length skipped)%nat with 0%nat by lia.
  cbn [list_insert]. rewrite clean_line_indent.
  pose proof (clean_loop_shaped_line skipped rest
                (takewhile isspace line) (strip (group1 m)) []
                Hs (takewhile_all _ _) (captured_value_no_quote line m Hm)) as Hn.
  rewrite strip_idempotent in Hn. unfold shaped_line in Hn.
  rewrite !app_nil_r in Hn. exact (Hn Hv).
Qed.

Lemma normalizer_is_idempotent_witness :
  clean_loop [shaped_line (lit "  ") (lit "abc") []] 0
             [shaped_line (lit "  ") (lit "abc") []]
  = Found [shaped_line (lit "  ") (lit "abc") []].
Proof.
  apply (normalizer_is_idempotent
           [shaped_line (lit "  ") (lit " abc ") (lit " # x")]).
  vm_compute. reflexivity.
Defined.

End NormalizerEdges.

(** ** Further properties of the two helper functions *)
Section Helpers.
Import Py Re PyFacts ReFacts Patterns Script.

(** X10: [get_database_id_from_local] never stops the run and touches no
    file: a missing or unreadable file gives [None].  A value it returns
    holds no double quote and no whitespace around it. *)
Theorem local_value_is_clean (w : world) :
  (exists o, fst (get_database_id_from_local wrangler_local w) = Return o
             /\ (wrangler_local w = Missing \/ wrangler_local w = Unreadable ->
                 o = None))
  /\ same_files w (snd (get_database_id_from_local wrangler_local w))
  /\ forall v, fst (get_database_id_from_local wrangler_local w) = Return (Some v) ->
               ~ In QUOTE v /\ strip v = v.
Proof.
  destruct w as [env loc ex toml wr wl out err fm].
  unfold get_database_id_from_local, same_files, bind, get, ret, eprint. simpl.
  destruct loc as [| |content]; simpl.
  - split; [exists None; auto|]. split; [repeat split|]. intros v H. discriminate H.
  - split; [exists None; auto|]. split; [repeat split|]. intros v H. discriminate H.
  - destruct (search value_pattern content) as [m|] eqn:Hm; simpl.
    + split.
      { eexists. split; [reflexivity|]. intros [H|H]; discriminate H. }
      split; [repeat split|]. intros v [= <-].
      split; [exact (captured_value_no_quote content m Hm) | apply strip_idempotent].
    + split.
      { exists None. split; [reflexivity | auto]. }
      split; [repeat split|]. intros v H. discriminate H.
Qed.

(** X11: what [validate_database_id] accepts, in full: the strings made of
    hexadecimal groups of 8, 4, 4, 4 and 12 digits joined by hyphens, and
    those same strings followed by one line feed; nothing else. *)
Theorem validator_accepts_exactly (s : str) :
  validate_database_id s = true <->
  uuid_shaped s \/ exists u, uuid_shaped u /\ s = u ++ [LF].
Proof. exact (validate_database_id_iff s). Qed.

End Helpers.

(** ** The written text, split into lines again *)
Section WrittenLines.
Import Py Re PyFacts ReFacts Patterns Script.

Lemma join_snoc (sep : str) (ls : list str) (l : str) :
  join sep (ls ++ [l])
  = match ls with
    | [] => l
    | _ :: _ => join sep ls ++ sep ++ l
    end.
Proof.
  induction ls as [|l0 ls IH]; [reflexivity|].
  destruct ls as [|l1 ls]; [reflexivity|].
  change (join sep ((l0 :: l1 :: ls) ++ [l]))
    with (l0 ++ sep ++ join sep ((l1 :: ls) ++ [l])).
  rewrite IH.
  change (join sep (l0 :: l1 :: ls)) with (l0 ++ sep ++ join sep (l1 :: ls)).
  rewrite <- !app_assoc. reflexivity.
Qed.

(** Plain lines joined and closed by a line feed split back into
    themselves. *)
Lemma splitlines_join_closed (ls : list str) :
  ls <> [] ->
  Forall (Forall (fun c => islinebreak c = false)) ls ->
  splitlines (join [LF] ls ++ [LF]) = ls.
Proof.
  intros Hne Hls. induction Hls as [|l ls Hl Hls IH]; [contradiction|].
  rewrite join_cons. destruct ls as [|l1 ls].
  - rewrite (splitlines_app_line l [] Hl). reflexivity.
  - rewrite <- !app_assoc. cbn [app]. rewrite (splitlines_app_line l _ Hl).
    rewrite IH by discriminate. reflexivity.
Qed.

(** The joined text ends with a line feed only when its last line is
    empty. *)
Lemma join_last_line (ls : list str) (l : str) :
  Forall (fun c => islinebreak c = false) l -> l <> [] ->
  endswith (join [LF] (ls ++ [l])) [LF] = false
  /\ nonempty (join [LF] (ls ++ [l])) = true.
Proof.
  intros Hl Hne. destruct (exists_last Hne) as [l' [c ->]].
  assert (Hc : islinebreak c = false).
  { rewrite List.Forall_forall in Hl. apply Hl, in_or_app. right. left. reflexivity. }
  assert (E : exists t, join [LF] (ls ++ [l' ++ [c]]) = t ++ [c]).
  { rewrite join_snoc. destruct ls.
    - exists l'. reflexivity.
    - eexists. rewrite !app_assoc. reflexivity. }
  destruct E as [t ->]. split.
  - apply not_true_iff_false. intros H. apply endswith_iff in H as [t' H].
    apply app_inj_tail in H as [_ ->]. discriminate Hc.
  - destruct t; reflexivity.
Qed.

Lemma join_lines_split_back (ls : list str) (l : str) :
  Forall (Forall (fun c => islinebreak c = false)) (ls ++ [l]) ->
  splitlines (join_lines (ls ++ [l])) = if nonempty l then ls ++ [l] else ls.
Proof.
  intros Hall. pose proof Hall as Hall'.
  apply Forall_app in Hall' as [Hls Hl]. inversion Hl as [|? ? Hl0 _]; subst.
  unfold join_lines. destruct l as [|c l]; cbn [nonempty].
  - rewrite join_snoc. destruct ls as [|l0 ls]; [reflexivity|].
    rewrite app_nil_r.
    assert (Hend : endswith (join [LF] (l0 :: ls) ++ [LF]) [LF] = true)
      by (apply endswith_iff; eauto).
    rewrite Hend, andb_false_r.
    apply splitlines_join_closed; [discriminate | exact Hls].
  - destruct (join_last_line ls (c :: l) Hl0 ltac:(discriminate)) as [-> ->].
    cbn [andb negb]. apply splitlines_join_closed; [|exact Hall].
    destruct ls; discriminate.
Qed.

(** X12: split into lines again, the text the script writes gives back the
    lines the normalizer returned, in order, less one empty last line: what
    [join] and the appended line feed do, [splitlines] undoes. *)
Theorem written_text_splits_back (substituted : str) (lines' : list str) :
  clean_loop (splitlines substituted) 0 (splitlines substituted) = Found lines' ->
  exists ls l,
    lines' = ls ++ [l]
    /\ splitlines (join_lines lines') = if nonempty l then lines' else ls.
Proof.
  intros Hloop. pose proof (clean_loop_plain_lines _ _ Hloop) as Hplain.
  assert (Hne : lines' <> []).
  { destruct (clean_loop_lines _ _ Hloop) as [sk [ln [rs [m [_ [-> _]]]]]].
    destruct sk; discriminate. }
  destruct (exists_last Hne) as [ls [l ->]].
  exists ls, l. split; [reflexivity|].
  rewrite (join_lines_split_back ls l Hplain). reflexivity.
Qed.

Lemma written_text_splits_back_witness :
  splitlines (join_lines [lit "[[d1_databases]]";
                          shaped_line (lit "  ") (lit "abc") []; []])
  = [lit "[[d1_databases]]"; shaped_line (lit "  ") (lit "abc") []].
Proof.
  destruct (written_text_splits_back
              (lit "[[d1_databases]]" ++ [CR; LF]
               ++ shaped_line (lit "  ") (lit " abc ") (lit " # x") ++ [LF; LF])
              [lit "[[d1_databases]]"; shaped_line (lit "  ") (lit "abc") []; []])
    as [ls [l [E H]]].
  - vm_compute. reflexivity.
  - change [lit "[[d1_databases]]"; shaped_line (lit "  ") (lit "abc") []; []]
      with ([lit "[[d1_databases]]"; shaped_line (lit "  ") (lit "abc") []] ++ [[]])
      in E.
    apply app_inj_tail in E as [<- <-]. exact H.
Defined.

End WrittenLines.
